(** * BFS/DFS visualizer: traversal engine and playback globals

    A shallow embedding of [BFS_DFS_Visualizer.py].  The networkx graph is
    modelled by its adjacency structure (an insertion-ordered dict of
    insertion-ordered dicts), the two traversal loops by fuelled
    fixpoints over their local variables, and the matplotlib callbacks by
    a small state-and-exception monad over the module's globals. *)

From Stdlib Require Import ZArith Lia.
From stdpp Require Import base decidable option list sets gmap strings relations pretty.

Open Scope string_scope.
Open Scope list_scope.
Open Scope nat_scope.

#[local] Set Warnings "-clear-no-such-hyp".

(** ** Exceptions and outcomes *)

Definition node := string.

(** The exceptions the modelled code can raise: [G.neighbors] on a node
    that is not in the graph ([networkx.NetworkXError]), a method call on
    [None] (no animation, or the event source of a finished one) and a
    list index out of range. *)
Inductive exn : Type :=
  | NetworkXError (n : node)
  | AttributeError
  | IndexError.

(** A loop run on a fuel budget either returns, raises, or exhausts the
    budget. *)
Inductive outcome (A : Type) : Type :=
  | Return (a : A)
  | Raise (e : exn)
  | OutOfFuel.
Arguments Return {A} a.
Arguments Raise {A} e.
Arguments OutOfFuel {A}.

Definition outcome_map {A B} (f : A → B) (o : outcome A) : outcome B :=
  match o with
  | Return a => Return (f a)
  | Raise e => Raise e
  | OutOfFuel => OutOfFuel
  end.

(** ** Graph model: [nx.Graph] *)

(** [G._adj]: each node, in insertion order, with its neighbours in
    insertion order. *)
Definition Graph := list (node * list node).

Definition nodes (G : Graph) : list node := G.*1.

Fixpoint adj (G : Graph) (n : node) : option (list node) :=
  match G with
  | [] => None
  | (m, ns) :: G' => if decide (m = n) then Some ns else adj G' n
  end.

(** [G.neighbors(n)] raises [NetworkXError] when [n] is not a node. *)
Definition neighbors (G : Graph) (n : node) : exn + list node :=
  match adj G n with
  | Some ns => inr ns
  | None => inl (NetworkXError n)
  end.

(** [if u not in self._node: self._adj[u] = {}]. *)
Definition add_node (u : node) (G : Graph) : Graph :=
  match adj G u with
  | Some _ => G
  | None => G ++ [(u, [])]
  end.

(** [self._adj[u][v] = datadict]: a key already present keeps its place. *)
Fixpoint adj_set (u v : node) (G : Graph) : Graph :=
  match G with
  | [] => []
  | (m, ns) :: G' =>
      if decide (m = u)
      then (m, if decide (v ∈ ns) then ns else ns ++ [v]) :: G'
      else (m, ns) :: adj_set u v G'
  end.

Definition add_edge (e : node * node) (G : Graph) : Graph :=
  let '(u, v) := e in
  adj_set v u (adj_set u v (add_node v (add_node u G))).

Definition add_edges_from (es : list (node * node)) (G : Graph) : Graph :=
  foldl (λ G e, add_edge e G) G es.

Definition edges : list (node * node) :=
  [ ("A", "B"); ("A", "C");
    ("B", "D"); ("B", "E");
    ("C", "F"); ("C", "G");
    ("A", "H"); ("H", "I") ].

Definition G : Graph := add_edges_from edges [].

(** ** Traversal engine *)

(** [list(visited)] enumerates a Python set in hash order, which the
    language leaves unspecified (and which string hashing randomises per
    process).  The enumeration is therefore a parameter of the model, known
    only to list exactly the members of the set. *)
Record set_iteration : Type := SetIteration {
  to_list : gset node → list node;
  to_list_spec : ∀ s : gset node, list_to_set (to_list s) = s
}.

Definition elements_iteration : set_iteration :=
  {| to_list := elements; to_list_spec := list_to_set_elements_L |}.

(** Another enumeration, listing every set the other way round. *)
Definition reverse_iteration : set_iteration.
Proof.
  refine {| to_list := λ s, reverse (elements s) |}.
  intros s. apply set_eq. intros x.
  by rewrite elem_of_list_to_set, elem_of_reverse, elem_of_elements.
Defined.

(** The locals of a traversal when its [while] loop exits. *)
Record locals : Type := Locals {
  visited : gset node;
  steps : list (list node)
}.

Section Traversal.
Variable so : set_iteration.
Variable G : Graph.

(** The [while queue:] loop of [bfs_traversal]; the deque is a list with
    its left end at the head. *)
Fixpoint bfs_loop (fuel : nat) (visited : gset node) (queue : list node)
    (steps : list (list node)) : outcome locals :=
  match queue with
  | [] => Return (Locals visited steps)
  | node :: queue =>
      match fuel with
      | O => OutOfFuel
      | S fuel =>
          if decide (node ∈ visited) then bfs_loop fuel visited queue steps
          else
            let visited := visited ∪ {[node]} in
            let steps := steps ++ [to_list so visited] in
            match neighbors G node with
            | inl e => Raise e
            | inr ns =>
                bfs_loop fuel visited
                  (queue ++ filter (λ neighbor, neighbor ∉ visited) ns) steps
            end
      end
  end.

Definition bfs_traversal (fuel : nat) (start : node)
    : outcome (list (list node)) :=
  outcome_map steps (bfs_loop fuel ∅ [start] []).

(** [stack.pop()]: the top of a Python list used as a stack is its last
    element. *)
Definition pop (stack : list node) : option (list node * node) :=
  match reverse stack with
  | [] => None
  | node :: r => Some (reverse r, node)
  end.

(** The [while stack:] loop of [dfs_traversal]. *)
Fixpoint dfs_loop (fuel : nat) (visited : gset node) (stack : list node)
    (steps : list (list node)) : outcome locals :=
  match pop stack with
  | None => Return (Locals visited steps)
  | Some (stack, node) =>
      match fuel with
      | O => OutOfFuel
      | S fuel =>
          if decide (node ∈ visited) then dfs_loop fuel visited stack steps
          else
            let visited := visited ∪ {[node]} in
            let steps := steps ++ [to_list so visited] in
            match neighbors G node with
            | inl e => Raise e
            | inr ns => dfs_loop fuel visited (stack ++ reverse ns) steps
            end
      end
  end.

Definition dfs_traversal (fuel : nat) (start : node)
    : outcome (list (list node)) :=
  outcome_map steps (dfs_loop fuel ∅ [start] []).
End Traversal.


(** ** Specification vocabulary *)

(** [b] is listed among the neighbours of [a]. *)
Definition edge (G : Graph) (a b : node) : Prop :=
  ∃ ns, adj G a = Some ns ∧ b ∈ ns.

Definition reachable (G : Graph) : node → node → Prop := rtc (edge G).

(** Every listed neighbour is itself a node, as in any [nx.Graph]. *)
Definition graph_closed (G : Graph) : Prop :=
  ∀ a b, edge G a b → is_Some (adj G b).

(** The visited-node sets behind a step sequence. *)
Definition snapshots (steps : list (list node)) : list (gset node) :=
  list_to_set <$> steps.

(** Each snapshot extends the one before it by exactly one node. *)
Definition grows_by_one_node (snaps : list (gset node)) : Prop :=
  ∀ i s t, snaps !! i = Some s → snaps !! S i = Some t →
    s ⊆ t ∧ size t = S (size s).

(** [chain v snaps v']: starting from [v], each snapshot adds one fresh
    node to its predecessor, ending in [v']. *)
Inductive chain : gset node → list (gset node) → gset node → Prop :=
  | chain_nil v : chain v [] v
  | chain_cons v x snaps v' :
      x ∉ v → chain (v ∪ {[x]}) snaps v' →
      chain v ((v ∪ {[x]}) :: snaps) v'.

(** The loop invariant of a traversal from [start]: what is marked or
    waiting is reachable, and one hop from a marked node leads to a node
    that is marked or waiting. *)
Definition covers (G : Graph) (start : node) (v : gset node)
    (wl : list node) : Prop :=
  (∀ x, x ∈ v → reachable G start x) ∧
  (∀ x, x ∈ wl → reachable G start x) ∧
  (start ∈ v ∨ start ∈ wl) ∧
  (∀ x y, x ∈ v → edge G x y → y ∈ v ∨ y ∈ wl).

(** The node each snapshot adds to the one before it, in step order. *)
Fixpoint first_visits (prev : gset node) (snaps : list (gset node))
    : list node :=
  match snaps with
  | [] => []
  | s :: snaps => elements (s ∖ prev) ++ first_visits s snaps
  end.

Definition visit_order (steps : list (list node)) : list node :=
  first_visits ∅ (snapshots steps).

(** Depth-first exploration in adjacency order, as the specification
    words it: the nodes of [ns] are taken up in the order given; a node
    not yet marked is marked, then its neighbours are explored in
    adjacency order, all of them and all they lead to, before the next
    node of [ns] is looked at.  Returns the marked set and the nodes in
    the order they were marked; [None] when a node is unknown or the
    budget runs out. *)
Fixpoint preorder (G : Graph) (fuel : nat) (v : gset node) (ns : list node)
    : option (gset node * list node) :=
  match ns with
  | [] => Some (v, [])
  | n :: ns =>
      match fuel with
      | O => None
      | S fuel =>
          if decide (n ∈ v) then preorder G fuel v ns
          else
            match adj G n with
            | None => None
            | Some ms =>
                match preorder G fuel (v ∪ {[n]}) ms with
                | None => None
                | Some (v1, o1) =>
                    match preorder G fuel v1 ns with
                    | None => None
                    | Some (v2, o2) => Some (v2, n :: o1 ++ o2)
                    end
                end
            end
      end
  end.

(** What the specification asks of a step sequence from [start]. *)
Definition step_sequence_of (G : Graph) (start : node)
    (steps : list (list node)) : Prop :=
  grows_by_one_node (snapshots steps) ∧
  ∃ final : gset node,
    last (snapshots steps) = Some final ∧
    (∀ x, x ∈ final ↔ reachable G start x) ∧
    length steps = size final.

(** Loop iterations needed at most: one per queued item; a node queues its
    neighbours once. *)
Definition weight (G : Graph) (v : gset node) : nat :=
  sum_list ((λ e, if decide (e.1 ∈ v) then 0 else S (length e.2)) <$> G).

Definition fuel_bound (G : Graph) : nat := S (weight G ∅).

(** ** A worklist loop covering both traversals *)

Section Worklist.
Variable so : set_iteration.
Variable G : Graph.
Variable take : list node → option (list node * node).
Variable push : gset node → list node → list node → list node.

Fixpoint wl_loop (fuel : nat) (v : gset node) (wl : list node)
    (s : list (list node)) : outcome locals :=
  match take wl with
  | None => Return (Locals v s)
  | Some (rest, n) =>
      match fuel with
      | O => OutOfFuel
      | S fuel =>
          if decide (n ∈ v) then wl_loop fuel v rest s
          else
            match neighbors G n with
            | inl e => Raise e
            | inr ns =>
                wl_loop fuel (v ∪ {[n]}) (push (v ∪ {[n]}) rest ns)
                  (s ++ [to_list so (v ∪ {[n]})])
            end
      end
  end.
End Worklist.

Definition take_front (queue : list node) : option (list node * node) :=
  match queue with
  | [] => None
  | n :: queue => Some (queue, n)
  end.

Definition push_unvisited (v : gset node) (queue ns : list node) : list node :=
  queue ++ filter (λ neighbor, neighbor ∉ v) ns.

Definition push_reversed (v : gset node) (stack ns : list node) : list node :=
  stack ++ reverse ns.

(** ** Playback: the module's globals and the matplotlib callbacks *)

(** [matplotlib.animation.FuncAnimation(fig, draw_step, frames=n,
    interval=1000, repeat=False)], as far as the callbacks observe it: the
    frame iterator over [range(n)] and the timer.  [event_source] is
    [Some running] while the animation lives and [None] once it has run
    out of frames. *)
Record FuncAnimation : Type := MkAnimation {
  frames : nat;
  frame_seq : nat;
  event_source : option bool
}.

Record globals : Type := MkGlobals {
  current_animation : option FuncAnimation;
  traversal_type : string;
  current_step : Z;
  is_playing : bool;
  is_paused : bool;
  ax_title : string;
  node_color : list string;
  btn_start_label : string
}.

Definition set_current_animation (a : option FuncAnimation) (g : globals) :=
  MkGlobals a (traversal_type g) (current_step g) (is_playing g)
    (is_paused g) (ax_title g) (node_color g) (btn_start_label g).
Definition set_traversal_type (t : string) (g : globals) :=
  MkGlobals (current_animation g) t (current_step g) (is_playing g)
    (is_paused g) (ax_title g) (node_color g) (btn_start_label g).
Definition set_current_step (i : Z) (g : globals) :=
  MkGlobals (current_animation g) (traversal_type g) i (is_playing g)
    (is_paused g) (ax_title g) (node_color g) (btn_start_label g).
Definition set_is_playing (b : bool) (g : globals) :=
  MkGlobals (current_animation g) (traversal_type g) (current_step g) b
    (is_paused g) (ax_title g) (node_color g) (btn_start_label g).
Definition set_is_paused (b : bool) (g : globals) :=
  MkGlobals (current_animation g) (traversal_type g) (current_step g)
    (is_playing g) b (ax_title g) (node_color g) (btn_start_label g).
Definition set_ax_title (t : string) (g : globals) :=
  MkGlobals (current_animation g) (traversal_type g) (current_step g)
    (is_playing g) (is_paused g) t (node_color g) (btn_start_label g).
Definition set_node_color (c : list string) (g : globals) :=
  MkGlobals (current_animation g) (traversal_type g) (current_step g)
    (is_playing g) (is_paused g) (ax_title g) c (btn_start_label g).
Definition set_btn_start_label (l : string) (g : globals) :=
  MkGlobals (current_animation g) (traversal_type g) (current_step g)
    (is_playing g) (is_paused g) (ax_title g) (node_color g) l.

(** A callback reads and writes the globals and may raise; what it wrote
    before raising stays written. *)
Definition M (A : Type) : Type := globals → (exn + A) * globals.

Global Instance M_ret : MRet M := λ A a g, (inr a, g).
Global Instance M_bind : MBind M := λ A B f m g,
  match m g with
  | (inl e, g') => (inl e, g')
  | (inr a, g') => f a g'
  end.

Definition get : M globals := λ g, (inr g, g).
Definition modify (f : globals → globals) : M unit := λ g, (inr (), f g).
Definition raise {A} (e : exn) : M A := λ g, (inl e, g).

(** [l[i]] on a Python list: a negative index counts from the end. *)
Definition getitem {A} (l : list A) (i : Z) : option A :=
  if decide (0 ≤ i)%Z then l !! Z.to_nat i
  else if decide (0 ≤ Z.of_nat (length l) + i)%Z
       then l !! Z.to_nat (Z.of_nat (length l) + i)
       else None.

(** The playback state of the specification, read off the two flags. *)
Inductive status : Type := Idle | Playing | Paused.

Definition status_of (g : globals) : status :=
  if is_playing g then Playing else if is_paused g then Paused else Idle.

(** [f"{traversal_type} - Step {current_step + 1}/{len(steps)}"] *)
Definition step_title (t : string) (i : Z) (n : nat) : string :=
  t +:+ " - Step " +:+ pretty (i + 1)%Z +:+ "/" +:+ pretty (Z.of_nat n).

(** [f"{traversal_type} - Complete"] *)
Definition complete_title (t : string) : string := t +:+ " - Complete".

Section Playback.
Variable G : Graph.
Variables bfs_steps dfs_steps : list (list node).

(** [bfs_steps if traversal_type == 'BFS' else dfs_steps] *)
Definition active_steps (g : globals) : list (list node) :=
  if decide (traversal_type g = "BFS") then bfs_steps else dfs_steps.

(** [ax.clear()] *)
Definition ax_clear : M unit :=
  modify (set_ax_title "");; modify (set_node_color []).

Definition draw_current_step : M unit :=
  ax_clear;;
  g ← get;
  let steps := active_steps g in
  color_map ←
    (if decide (current_step g < Z.of_nat (length steps))%Z then
       modify (set_ax_title
         (step_title (traversal_type g) (current_step g) (length steps)));;
       match nodes G, getitem steps (current_step g) with
       | [], _ => mret []
       | _, None => raise IndexError
       | ns, Some snap =>
           mret ((λ node, if decide (node ∈ snap) then "red"
                          else "lightgray") <$> ns)
       end
     else
       modify (set_ax_title (complete_title (traversal_type g)));;
       mret ((λ _, "red") <$> nodes G));
  modify (set_node_color color_map).

Definition draw_step (i : Z) : M unit :=
  modify (set_current_step i);;
  draw_current_step.

Definition reset_to_beginning : M unit :=
  modify (set_current_step 0).

(** [current_animation.resume()]: [self.event_source.start()] *)
Definition animation_resume : M unit :=
  g ← get;
  match current_animation g with
  | Some (MkAnimation n i (Some _)) =>
      modify (set_current_animation (Some (MkAnimation n i (Some true))))
  | _ => raise AttributeError
  end.

(** [current_animation.pause()]: [self.event_source.stop()] *)
Definition animation_pause : M unit :=
  g ← get;
  match current_animation g with
  | Some (MkAnimation n i (Some _)) =>
      modify (set_current_animation (Some (MkAnimation n i (Some false))))
  | _ => raise AttributeError
  end.

(** [FuncAnimation._init_draw], run at the first draw after the animation
    is created, which the [plt.draw()] closing [start_animation] brings
    about: the first frame of a fresh [range(frames)] goes to [draw_step];
    an empty range draws nothing. *)
Definition animation_init_draw : M unit :=
  g ← get;
  match current_animation g with
  | Some (MkAnimation (S _) _ _) => draw_step 0
  | _ => mret ()
  end.

Definition start_animation : M unit :=
  g ← get;
  if is_paused g then
    animation_resume;;
    modify (set_is_playing true);;
    modify (set_is_paused false);;
    modify (set_btn_start_label "Pause")
  else
    reset_to_beginning;;
    g ← get;
    let steps := active_steps g in
    modify (set_current_animation
              (Some (MkAnimation (length steps) 0 (Some true))));;
    modify (set_is_playing true);;
    modify (set_is_paused false);;
    modify (set_btn_start_label "Pause");;
    animation_init_draw.

Definition pause_animation : M unit :=
  g ← get;
  if bool_decide (current_animation g ≠ None) && is_playing g then
    animation_pause;;
    modify (set_is_playing false);;
    modify (set_is_paused true);;
    modify (set_btn_start_label "Resume")
  else mret ().

Definition next_step : M unit :=
  g ← get;
  let steps := active_steps g in
  if decide (current_step g < Z.of_nat (length steps) - 1)%Z then
    modify (set_current_step (current_step g + 1));;
    draw_current_step;;
    g ← get;
    if is_playing g then pause_animation else mret ()
  else mret ().

Definition prev_step : M unit :=
  g ← get;
  if decide (current_step g > 0)%Z then
    modify (set_current_step (current_step g - 1));;
    draw_current_step;;
    g ← get;
    if is_playing g then pause_animation else mret ()
  else mret ().

Definition reset_graph : M unit :=
  g ← get;
  (match current_animation g with
   | Some (MkAnimation _ _ (Some _)) =>
       modify (set_current_animation None)
   | _ => mret ()
   end);;
  modify (set_is_playing false);;
  modify (set_is_paused false);;
  modify (set_current_step 0);;
  modify (set_btn_start_label "Start");;
  ax_clear;;
  modify (set_node_color ((λ _, "lightgray") <$> nodes G));;
  modify (set_ax_title "Graph Reset - Ready for Traversal").

Definition set_bfs : M unit :=
  modify (set_traversal_type "BFS");;
  modify (set_current_step 0);;
  g ← get;
  if negb (is_playing g)
  then modify (set_ax_title "Selected BFS - Ready to Start")
  else mret ().

Definition set_dfs : M unit :=
  modify (set_traversal_type "DFS");;
  modify (set_current_step 0);;
  g ← get;
  if negb (is_playing g)
  then modify (set_ax_title "Selected DFS - Ready to Start")
  else mret ().

Definition toggle_play_pause : M unit :=
  g ← get;
  if is_playing g then pause_animation else start_animation.

Definition on_key_press (key : string) : M unit :=
  if decide (key = " ") then toggle_play_pause
  else if decide (key = "left") then prev_step
  else if decide (key = "right") then next_step
  else if decide (key = "r") then reset_graph
  else mret ().

(** One firing of the animation's timer: the next frame of
    [range(frames)] is handed to [draw_step]; when none is left the
    animation, created with [repeat=False], gives up its event source.
    A stopped or absent timer fires nothing. *)
Definition timer_tick : M unit :=
  g ← get;
  match current_animation g with
  | Some (MkAnimation n i (Some true)) =>
      if decide (i < n) then
        modify (set_current_animation
                  (Some (MkAnimation n (S i) (Some true))));;
        draw_step (Z.of_nat i)
      else
        modify (set_current_animation (Some (MkAnimation n i None)))
  | _ => mret ()
  end.

(** What the GUI event loop delivers: the six buttons, a key press, a
    timer firing. *)
Inductive event : Type :=
  | ClickBFS | ClickDFS | ClickStart | ClickReset | ClickPrev | ClickNext
  | KeyPress (key : string)
  | TimerTick.

Definition callback (e : event) : M unit :=
  match e with
  | ClickBFS => set_bfs
  | ClickDFS => set_dfs
  | ClickStart => toggle_play_pause
  | ClickReset => reset_graph
  | ClickPrev => prev_step
  | ClickNext => next_step
  | KeyPress key => on_key_press key
  | TimerTick => timer_tick
  end.

(** The event loop reports an exception escaping a callback and carries
    on with the globals as the callback left them. *)
Definition dispatch (g : globals) (e : event) : globals := (callback e g).2.

Definition run (es : list event) (g : globals) : globals :=
  foldl dispatch g es.

(** The globals once the module body has run: the initial assignments,
    then [reset_graph(None)]. *)
Definition startup : globals :=
  (reset_graph (MkGlobals None "BFS" 0 false false "" [] "Start")).2.
End Playback.

(** ** The module body *)

(** [bfs_steps = bfs_traversal('A')] and [dfs_steps = dfs_traversal('A')];
    an exception here ends the program.  The two calls build their sets
    separately, so each has its own enumeration of them. *)
Definition precompute (so_bfs so_dfs : set_iteration) (fuel : nat)
    : outcome (list (list node) * list (list node)) :=
  match bfs_traversal so_bfs G fuel "A" with
  | Return bfs_steps =>
      outcome_map (pair bfs_steps) (dfs_traversal so_dfs G fuel "A")
  | Raise e => Raise e
  | OutOfFuel => OutOfFuel
  end.

(** What holds of the globals between callbacks when both step sequences
    have [n] steps. *)
Definition playback_inv (n : nat) (g : globals) : Prop :=
  (0 ≤ current_step g < Z.of_nat n)%Z ∧
  (traversal_type g = "BFS" ∨ traversal_type g = "DFS") ∧
  (∀ a, current_animation g = Some a → frames a = n) ∧
  ax_title g ≠ complete_title "BFS" ∧ ax_title g ≠ complete_title "DFS".


(** The label the Start button carries in each playback status. *)
Definition label_of (s : status) : string :=
  match s with
  | Idle => "Start"
  | Playing => "Pause"
  | Paused => "Resume"
  end.

(** How the flags, the button label and the animation go together between
    callbacks. *)
Definition controls_inv (g : globals) : Prop :=
  btn_start_label g = label_of (status_of g) ∧
  (is_playing g = true → is_paused g = false) ∧
  (is_paused g = true →
     ∃ n i, current_animation g = Some (MkAnimation n i (Some false))) ∧
  (is_playing g = true →
     ∃ n i, current_animation g = Some (MkAnimation n i (Some true)) ∨
            current_animation g = Some (MkAnimation n i None)) ∧
  (is_playing g = false → is_paused g = false →
     ∀ n i b, current_animation g = Some (MkAnimation n i b) → b = None).

(** The playing flag is set although the animation has run out of
    frames. *)
Definition finished_playing (g : globals) : Prop :=
  is_playing g = true ∧
  ∃ n i, current_animation g = Some (MkAnimation n i None).

(** The loop invariant of the breadth-first order: [lev] gives every
    marked node its hop distance from [start], at most [l]; every node
    within fewer than [l] hops is marked; the queue holds nodes [l] hops
    away ([Q1]) before nodes [l + 1] hops away ([Q2]); [order], the nodes
    in the order they were marked, is sorted by [lev]. *)
Definition bfs_levels (G : Graph) (start : node) (lev : node → nat)
    (l : nat) (v : gset node) (Q1 Q2 order : list node) : Prop :=
  (∀ x, x ∈ v →
     lev x ≤ l ∧ nsteps (edge G) (lev x) start x ∧
     ∀ d, nsteps (edge G) d start x → lev x ≤ d) ∧
  (∀ y d, nsteps (edge G) d start y → d < l → y ∈ v) ∧
  (∀ y, nsteps (edge G) l start y → y ∈ v ∨ y ∈ Q1) ∧
  (∀ q, q ∈ Q1 → nsteps (edge G) l start q) ∧
  (∀ q, q ∈ Q2 → nsteps (edge G) (S l) start q) ∧
  (∀ x y, x ∈ v → lev x = l → edge G x y → y ∈ v ∨ y ∈ Q2) ∧
  (∀ x, x ∈ order → x ∈ v) ∧
  (∀ i j a b, i < j → order !! i = Some a → order !! j = Some b →
     lev a ≤ lev b).

(** * Properties *)

(** ** The two loops are worklist loops *)

Lemma bfs_loop_wl so G fuel v q s :
  bfs_loop so G fuel v q s = wl_loop so G take_front push_unvisited fuel v q s.
Proof.
  revert v q s. induction fuel as [|fuel IH]; intros v [|n q] s; simpl; try done.
  case_decide; [apply IH|]. destruct (neighbors G n); [done|apply IH].
Qed.

Lemma dfs_loop_wl so G fuel v st s :
  dfs_loop so G fuel v st s = wl_loop so G pop push_reversed fuel v st s.
Proof.
  revert v st s. induction fuel as [|fuel IH]; intros v st s; simpl;
    destruct (pop st) as [[st' n]|]; try done.
Qed.

Lemma pop_nil : pop [] = None.
Proof. done. Qed.

Lemma pop_snoc st n : pop (st ++ [n]) = Some (st, n).
Proof. unfold pop. rewrite reverse_snoc. simpl. by rewrite reverse_involutive. Qed.

Lemma pop_None st : pop st = None → st = [].
Proof.
  induction st as [|x st IHst] using rev_ind; [done|]. by rewrite pop_snoc.
Qed.

Lemma pop_Some st rest n : pop st = Some (rest, n) → st = rest ++ [n].
Proof.
  induction st as [|x st IHst] using rev_ind; [done|].
  rewrite pop_snoc. by intros [= -> ->].
Qed.

Lemma neighbors_inr G n ns : neighbors G n = inr ns ↔ adj G n = Some ns.
Proof. unfold neighbors. destruct (adj G n); naive_solver. Qed.

Lemma neighbors_inl G n e :
  neighbors G n = inl e ↔ adj G n = None ∧ e = NetworkXError n.
Proof. unfold neighbors. destruct (adj G n); naive_solver. Qed.

Lemma adj_is_Some G n : is_Some (adj G n) ↔ n ∈ nodes G.
Proof.
  unfold nodes. induction G as [|[m ms] G IH]; simpl.
  - split; [by intros [? ?]|by intros ?%elem_of_nil].
  - rewrite elem_of_cons. case_decide; subst; [naive_solver|].
    rewrite IH. naive_solver.
Qed.

(** ** Fuel *)

Lemma weight_mono G (v v' : gset node) : v ⊆ v' → weight G v' ≤ weight G v.
Proof.
  intros Hsub. unfold weight. induction G as [|[m ms] G IH]; csimpl; [done|].
  repeat case_decide; first [lia|set_solver].
Qed.

Lemma weight_visit G (v : gset node) n ns :
  adj G n = Some ns → n ∉ v →
  weight G (v ∪ {[n]}) + S (length ns) ≤ weight G v.
Proof.
  intros Hadj Hn. unfold weight.
  induction G as [|[m ms] G IH]; csimpl in *; [done|].
  destruct (decide (m = n)) as [->|Hne].
  - injection Hadj as ->.
    pose proof (weight_mono G v (v ∪ {[n]})) as Hm. unfold weight in Hm.
    rewrite decide_True by set_solver. rewrite decide_False by done.
    specialize (Hm ltac:(set_solver)). lia.
  - specialize (IH Hadj).
    destruct (decide (m ∈ v)).
    + rewrite decide_True by set_solver. lia.
    + rewrite decide_False by set_solver. lia.
Qed.

Section WorklistFacts.
Variable G : Graph.
Variable take : list node → option (list node * node).
Variable push : gset node → list node → list node → list node.

Lemma wl_loop_fuel_mono so fuel fuel' v wl s r :
  wl_loop so G take push fuel v wl s = Return r → fuel ≤ fuel' →
  wl_loop so G take push fuel' v wl s = Return r.
Proof.
  revert fuel' v wl s.
  induction fuel as [|fuel IH]; intros fuel' v wl s; simpl.
  - destruct fuel'; simpl; destruct (take wl) as [[rest n]|]; done.
  - destruct fuel' as [|fuel']; [lia|]. simpl.
    destruct (take wl) as [[rest n]|]; [|done].
    intros Hr Hle. case_decide; [apply IH; [done|lia]|].
    destruct (neighbors G n); [done|]. apply IH; [done|lia].
Qed.

(** The sets recorded do not depend on how Python enumerates a set. *)
Lemma wl_loop_iteration so1 so2 fuel v wl s1 s2 :
  snapshots s1 = snapshots s2 →
  outcome_map (λ r, (visited r, snapshots (steps r)))
    (wl_loop so1 G take push fuel v wl s1)
  = outcome_map (λ r, (visited r, snapshots (steps r)))
    (wl_loop so2 G take push fuel v wl s2).
Proof.
  revert v wl s1 s2.
  induction fuel as [|fuel IH]; intros v wl s1 s2 Hs; simpl;
    destruct (take wl) as [[rest n]|]; simpl; try by rewrite ?Hs.
  case_decide; [by apply IH|].
  destruct (neighbors G n); [done|]. apply IH.
  unfold snapshots in *. rewrite !fmap_app, Hs. simpl.
  by rewrite !to_list_spec.
Qed.

(** The loop records one snapshot per node it marks. *)
Lemma wl_loop_chain so fuel v wl s r :
  wl_loop so G take push fuel v wl s = Return r →
  ∃ new, steps r = s ++ new ∧ chain v (snapshots new) (visited r).
Proof.
  revert v wl s.
  induction fuel as [|fuel IH]; intros v wl s; simpl;
    destruct (take wl) as [[rest n]|]; try done;
    try (intros [= <-]; exists []; simpl; rewrite app_nil_r;
         split; [done|constructor]).
  case_decide as Hn; [apply IH|].
  destruct (neighbors G n); [done|].
  intros (new & -> & Hc)%IH. eexists (_ :: new). split.
  - by rewrite <-app_assoc.
  - simpl. rewrite to_list_spec. by constructor.
Qed.

Hypothesis take_None : ∀ wl, take wl = None → wl = [].
Hypothesis take_Some : ∀ wl rest n, take wl = Some (rest, n) → wl ≡ₚ n :: rest.
Hypothesis push_elem :
  ∀ v rest ns x, x ∈ push v rest ns → x ∈ rest ∨ x ∈ ns.
Hypothesis push_rest : ∀ v rest ns x, x ∈ rest → x ∈ push v rest ns.
Hypothesis push_new :
  ∀ (v : gset node) rest ns x, x ∈ ns → x ∉ v → x ∈ push v rest ns.
Hypothesis push_length :
  ∀ v rest ns, length (push v rest ns) ≤ length rest + length ns.

(** Every item costs one iteration, and a node is charged for its
    neighbours once, when it is marked. *)
Lemma wl_loop_terminates so fuel v wl s :
  graph_closed G → (∀ x, x ∈ wl → is_Some (adj G x)) →
  length wl + weight G v ≤ fuel →
  ∃ r, wl_loop so G take push fuel v wl s = Return r.
Proof.
  intros Hcl. revert v wl s.
  induction fuel as [|fuel IH]; intros v wl s Hwl Hfuel; simpl;
    destruct (take wl) as [[rest n]|] eqn:Htake; eauto.
  - apply take_Some, Permutation_length in Htake. simpl in *. lia.
  - apply take_Some in Htake.
    pose proof (Permutation_length Htake) as Hlen. simpl in Hlen.
    case_decide as Hn.
    + apply IH; [|lia]. intros x Hx. apply Hwl. rewrite Htake. set_solver.
    + destruct (Hwl n) as [ns Hns]; [rewrite Htake; set_solver|].
      rewrite (proj2 (neighbors_inr G n ns) Hns).
      pose proof (weight_visit G v n ns Hns Hn).
      pose proof (push_length (v ∪ {[n]}) rest ns).
      apply IH; [|lia].
      intros x [Hx|Hx]%push_elem.
      * apply Hwl. rewrite Htake. set_solver.
      * apply (Hcl n). by exists ns.
Qed.

Lemma wl_loop_covers so start fuel v wl s r :
  covers G start v wl →
  wl_loop so G take push fuel v wl s = Return r →
  covers G start (visited r) [].
Proof.
  revert v wl s.
  induction fuel as [|fuel IH]; intros v wl s Hc; simpl;
    destruct (take wl) as [[rest n]|] eqn:Htake; try done;
    try (apply take_None in Htake as ->; by intros [= <-]).
  apply take_Some in Htake. destruct Hc as (Hv & Hw & Hs & Hcl).
  assert (Hin : ∀ x, x ∈ wl ↔ x = n ∨ x ∈ rest)
    by (intros x; rewrite Htake; set_solver).
  case_decide as Hn.
  - apply IH. split_and!; [done|..].
    + intros x Hx. apply Hw, Hin. by right.
    + destruct Hs as [?|[->|?]%Hin]; auto.
    + intros x y Hx He. destruct (Hcl x y Hx He) as [?|[->|?]%Hin]; auto.
  - destruct (neighbors G n) as [|ns] eqn:Hns; [done|].
    apply neighbors_inr in Hns.
    assert (Hrn : reachable G start n) by (apply Hw, Hin; by left).
    apply IH. split_and!.
    + intros x [?| ->%elem_of_singleton]%elem_of_union; auto.
    + intros x [Hx|Hx]%push_elem; [apply Hw, Hin; by right|].
      eapply rtc_r; [done|]. by exists ns.
    + destruct Hs as [?|[->|?]%Hin]; [left|left|right];
        first [by apply push_rest|set_solver].
    + intros x y [Hx| ->%elem_of_singleton]%elem_of_union He.
      * destruct (Hcl x y Hx He) as [?|[->|?]%Hin]; [left|left|right];
          first [by apply push_rest|set_solver].
      * destruct He as (ns' & Hns' & Hy). simplify_eq.
        destruct (decide (y ∈ v ∪ {[n]})); [by left|right].
        by apply push_new.
Qed.

Lemma covers_reachable start (v : gset node) :
  covers G start v [] → ∀ x, x ∈ v ↔ reachable G start x.
Proof.
  intros (Hv & _ & Hs & Hcl) x. split; [apply Hv|].
  assert (start ∈ v) as Hstart by (destruct Hs as [?|?%elem_of_nil]; done).
  intros Hr. clear Hv Hs. induction Hr as [a|a b c Hab _ IH]; [done|].
  apply IH. destruct (Hcl a b Hstart Hab) as [?|?%elem_of_nil]; done.
Qed.

Lemma wl_loop_from_start so fuel start :
  graph_closed G → start ∈ nodes G → fuel_bound G ≤ fuel →
  ∃ r, wl_loop so G take push fuel ∅ [start] [] = Return r ∧
       chain ∅ (snapshots (steps r)) (visited r) ∧
       (∀ x, x ∈ visited r ↔ reachable G start x).
Proof.
  intros Hcl Hstart Hfuel.
  destruct (wl_loop_terminates so fuel ∅ [start] []) as [r Hr]; [done|..].
  { intros x ->%list_elem_of_singleton. by apply adj_is_Some. }
  { unfold fuel_bound in Hfuel. simpl. lia. }
  exists r. split; [done|]. split.
  - destruct (wl_loop_chain so fuel ∅ [start] [] r Hr) as (new & -> & Hc).
    done.
  - apply covers_reachable. eapply wl_loop_covers; [|done].
    split_and!; [set_solver|..|set_solver|set_solver].
    intros x ->%list_elem_of_singleton. apply rtc_refl.
Qed.

Lemma wl_loop_snapshots_unique so1 so2 f1 f2 v wl s1 s2 r1 r2 :
  snapshots s1 = snapshots s2 →
  wl_loop so1 G take push f1 v wl s1 = Return r1 →
  wl_loop so2 G take push f2 v wl s2 = Return r2 →
  visited r1 = visited r2 ∧ snapshots (steps r1) = snapshots (steps r2).
Proof.
  intros Hs H1 H2.
  apply (wl_loop_fuel_mono _ _ (f1 `max` f2)) in H1; [|lia].
  apply (wl_loop_fuel_mono _ _ (f1 `max` f2)) in H2; [|lia].
  pose proof (wl_loop_iteration so1 so2 (f1 `max` f2) v wl s1 s2 Hs) as Heq.
  rewrite H1, H2 in Heq. simpl in Heq. by simplify_eq.
Qed.
End WorklistFacts.

(** ** Chains of snapshots *)

Lemma chain_size v snaps v' :
  chain v snaps v' → size v' = size v + length snaps.
Proof.
  induction 1 as [|v x snaps v' Hx _ IH]; simpl; [lia|].
  rewrite IH, size_union, size_singleton by set_solver. lia.
Qed.

Lemma chain_last v snaps v' :
  chain v snaps v' → last (v :: snaps) = Some v'.
Proof.
  induction 1 as [|v x snaps v' Hx _ IH]; [done|].
  by rewrite last_cons_cons.
Qed.

Lemma chain_grows v snaps v' :
  chain v snaps v' → grows_by_one_node (v :: snaps).
Proof.
  induction 1 as [|v x snaps v' Hx _ IH]; intros i s t Hs Ht.
  - by destruct i.
  - destruct i as [|i]; simpl in *.
    + simplify_eq. split; [set_solver|].
      rewrite size_union, size_singleton by set_solver. lia.
    + by apply (IH i).
Qed.

Lemma chain_first_visits v snaps v' :
  chain v snaps v' → length (first_visits v snaps) = length snaps.
Proof.
  induction 1 as [|v x snaps v' Hx _ IH]; simpl; [done|].
  rewrite length_app, IH.
  replace ((v ∪ {[x]}) ∖ v) with ({[x]} : gset node) by set_solver.
  by rewrite elements_singleton.
Qed.

Lemma chain_step_sequence G start steps (v' : gset node) :
  chain ∅ (snapshots steps) v' →
  (∀ x, x ∈ v' ↔ reachable G start x) →
  step_sequence_of G start steps.
Proof.
  intros Hc Hv'. split.
  - intros i s t Hs Ht. by apply (chain_grows _ _ _ Hc (S i)).
  - exists v'. split_and!; [|done|].
    + pose proof (chain_last _ _ _ Hc) as Hl.
      destruct (snapshots steps) as [|s0 snaps] eqn:Hsn; [|done].
      simpl in Hl. simplify_eq.
      assert (start ∈ (∅ : gset node)) by (apply Hv', rtc_refl). set_solver.
    + apply chain_size in Hc. rewrite size_empty in Hc.
      unfold snapshots in Hc. rewrite length_fmap in Hc. lia.
Qed.

Lemma chain_snoc prev snaps (v : gset node) n :
  chain prev snaps v → n ∉ v → chain prev (snaps ++ [v ∪ {[n]}]) (v ∪ {[n]}).
Proof.
  induction 1 as [|v x snaps v' Hx _ IH]; intros Hn; simpl.
  - constructor; [done|constructor].
  - constructor; [done|by apply IH].
Qed.

Lemma first_visits_snoc prev snaps (v : gset node) n :
  chain prev snaps v → n ∉ v →
  first_visits prev (snaps ++ [v ∪ {[n]}]) = first_visits prev snaps ++ [n].
Proof.
  induction 1 as [|v x snaps v' Hx _ IH]; intros Hn; simpl.
  - replace ((v ∪ {[n]}) ∖ v) with ({[n]} : gset node) by set_solver.
    by rewrite elements_singleton.
  - by rewrite IH, app_assoc.
Qed.

Lemma visit_order_snoc so steps (v : gset node) n :
  chain ∅ (snapshots steps) v → n ∉ v →
  chain ∅ (snapshots (steps ++ [to_list so (v ∪ {[n]})])) (v ∪ {[n]}) ∧
  visit_order (steps ++ [to_list so (v ∪ {[n]})]) = visit_order steps ++ [n].
Proof.
  intros Hc Hn. unfold visit_order, snapshots in *.
  rewrite fmap_app. simpl. rewrite to_list_spec.
  split; [by apply chain_snoc|by apply first_visits_snoc].
Qed.

(** ** Graphs built by networkx are closed *)

Lemma adj_app G G' n :
  adj (G ++ G') n = match adj G n with Some ns => Some ns | None => adj G' n end.
Proof.
  induction G as [|[m ms] G IH]; simpl; [done|]. by case_decide.
Qed.

Lemma adj_add_node u G n :
  adj (add_node u G) n =
  match adj G n with
  | Some ns => Some ns
  | None => if decide (u = n) then Some [] else None
  end.
Proof.
  unfold add_node. destruct (adj G u) as [us|] eqn:Hu.
  - destruct (adj G n) eqn:Hn; [done|]. case_decide; [|done]. congruence.
  - rewrite adj_app. by destruct (adj G n).
Qed.

Lemma adj_adj_set u v G n :
  adj (adj_set u v G) n =
  if decide (u = n)
  then (λ ns, if decide (v ∈ ns) then ns else ns ++ [v]) <$> adj G n
  else adj G n.
Proof.
  induction G as [|[m ms] G IH]; simpl; [by case_decide|].
  repeat (case_decide; simpl; simplify_eq); try done.
  all: rewrite IH; by repeat (case_decide; simplify_eq).
Qed.

Lemma edge_add_edge u v G a b :
  edge (add_edge (u, v) G) a b →
  edge G a b ∨ (a = u ∧ b = v) ∨ (a = v ∧ b = u).
Proof.
  intros (ns & Hns & Hb). unfold add_edge in Hns.
  rewrite !adj_adj_set, !adj_add_node in Hns. unfold edge.
  destruct (adj G a) as [as_|] eqn:Ha; simpl in *;
    repeat (case_decide; simpl in *; simplify_eq);
    set_unfold; naive_solver.
Qed.

Lemma is_Some_adj_add_edge u v G b :
  is_Some (adj G b) ∨ b = u ∨ b = v → is_Some (adj (add_edge (u, v) G) b).
Proof.
  intros Hb. unfold add_edge. rewrite !adj_adj_set, !adj_add_node.
  destruct Hb as [[bs Hb]|[->| ->]]; rewrite ?Hb;
    repeat (case_decide; simpl; simplify_eq); try done;
    destruct (adj G _); simpl; repeat case_decide; done.
Qed.

Lemma graph_closed_nil : graph_closed [].
Proof. by intros a b (ns & ? & _). Qed.

Lemma graph_closed_add_edge e G :
  graph_closed G → graph_closed (add_edge e G).
Proof.
  destruct e as [u v]. intros Hcl a b Hab. apply is_Some_adj_add_edge.
  apply edge_add_edge in Hab as [?|[[_ ->]|[_ ->]]]; eauto.
Qed.

Lemma graph_closed_add_edges_from es G :
  graph_closed G → graph_closed (add_edges_from es G).
Proof.
  revert G. induction es as [|e es IH]; intros G HG; simpl; [done|].
  by apply IH, graph_closed_add_edge.
Qed.

Lemma G_closed : graph_closed G.
Proof. apply graph_closed_add_edges_from, graph_closed_nil. Qed.

(** ** The queue and stack disciplines *)

Lemma take_front_None wl : take_front wl = None → wl = [].
Proof. by destruct wl. Qed.

Lemma take_front_Some wl rest n :
  take_front wl = Some (rest, n) → wl ≡ₚ n :: rest.
Proof. destruct wl; intros [= -> ->]; done. Qed.

Lemma pop_Some_perm st rest n : pop st = Some (rest, n) → st ≡ₚ n :: rest.
Proof. intros ->%pop_Some. symmetry. apply Permutation_cons_append. Qed.

Lemma push_unvisited_elem v rest ns x :
  x ∈ push_unvisited v rest ns → x ∈ rest ∨ x ∈ ns.
Proof.
  unfold push_unvisited. rewrite elem_of_app, list_elem_of_filter. tauto.
Qed.

Lemma push_unvisited_rest v rest ns x :
  x ∈ rest → x ∈ push_unvisited v rest ns.
Proof. unfold push_unvisited. rewrite elem_of_app. tauto. Qed.

Lemma push_unvisited_new (v : gset node) rest ns x :
  x ∈ ns → x ∉ v → x ∈ push_unvisited v rest ns.
Proof.
  unfold push_unvisited. rewrite elem_of_app, list_elem_of_filter. tauto.
Qed.

Lemma push_unvisited_length v rest ns :
  length (push_unvisited v rest ns) ≤ length rest + length ns.
Proof.
  unfold push_unvisited. rewrite length_app.
  pose proof (length_filter (λ neighbor, neighbor ∉ v) ns). lia.
Qed.

Lemma push_reversed_elem v rest ns x :
  x ∈ push_reversed v rest ns → x ∈ rest ∨ x ∈ ns.
Proof. unfold push_reversed. rewrite elem_of_app, elem_of_reverse. tauto. Qed.

Lemma push_reversed_rest v rest ns x :
  x ∈ rest → x ∈ push_reversed v rest ns.
Proof. unfold push_reversed. rewrite elem_of_app. tauto. Qed.

Lemma push_reversed_new (v : gset node) rest ns x :
  x ∈ ns → x ∉ v → x ∈ push_reversed v rest ns.
Proof. unfold push_reversed. rewrite elem_of_app, elem_of_reverse. tauto. Qed.

Lemma push_reversed_length v rest ns :
  length (push_reversed v rest ns) ≤ length rest + length ns.
Proof. unfold push_reversed. by rewrite length_app, length_reverse. Qed.

Lemma bfs_loop_from_start so G fuel start :
  graph_closed G → start ∈ nodes G → fuel_bound G ≤ fuel →
  ∃ r, bfs_loop so G fuel ∅ [start] [] = Return r ∧
       chain ∅ (snapshots (steps r)) (visited r) ∧
       (∀ x, x ∈ visited r ↔ reachable G start x).
Proof.
  rewrite bfs_loop_wl.
  apply wl_loop_from_start;
    eauto using take_front_None, take_front_Some, push_unvisited_elem,
      push_unvisited_rest, push_unvisited_new, push_unvisited_length.
Qed.

Lemma dfs_loop_from_start so G fuel start :
  graph_closed G → start ∈ nodes G → fuel_bound G ≤ fuel →
  ∃ r, dfs_loop so G fuel ∅ [start] [] = Return r ∧
       chain ∅ (snapshots (steps r)) (visited r) ∧
       (∀ x, x ∈ visited r ↔ reachable G start x).
Proof.
  rewrite dfs_loop_wl.
  apply wl_loop_from_start;
    eauto using pop_None, pop_Some_perm, push_reversed_elem,
      push_reversed_rest, push_reversed_new, push_reversed_length.
Qed.

Lemma bfs_traversal_Return so G fuel start r :
  bfs_loop so G fuel ∅ [start] [] = Return r →
  bfs_traversal so G fuel start = Return (steps r).
Proof. unfold bfs_traversal. by intros ->. Qed.

Lemma dfs_traversal_Return so G fuel start r :
  dfs_loop so G fuel ∅ [start] [] = Return r →
  dfs_traversal so G fuel start = Return (steps r).
Proof. unfold dfs_traversal. by intros ->. Qed.

Lemma bfs_traversal_inv so G fuel start steps :
  bfs_traversal so G fuel start = Return steps →
  ∃ v, bfs_loop so G fuel ∅ [start] [] = Return (Locals v steps).
Proof.
  unfold bfs_traversal.
  destruct (bfs_loop so G fuel ∅ [start] []) as [[v s]| |]; simpl; [|done..].
  intros [= ->]. by exists v.
Qed.

Lemma dfs_traversal_inv so G fuel start steps :
  dfs_traversal so G fuel start = Return steps →
  ∃ v, dfs_loop so G fuel ∅ [start] [] = Return (Locals v steps).
Proof.
  unfold dfs_traversal.
  destruct (dfs_loop so G fuel ∅ [start] []) as [[v s]| |]; simpl; [|done..].
  intros [= ->]. by exists v.
Qed.

(** The sets a traversal records are the same under any enumeration of
    Python sets and any sufficient budget. *)
Lemma bfs_traversal_snapshots_unique so1 so2 G f1 f2 start s1 s2 :
  bfs_traversal so1 G f1 start = Return s1 →
  bfs_traversal so2 G f2 start = Return s2 →
  snapshots s1 = snapshots s2.
Proof.
  intros [v1 H1]%bfs_traversal_inv [v2 H2]%bfs_traversal_inv.
  rewrite bfs_loop_wl in H1, H2.
  by destruct (wl_loop_snapshots_unique _ _ _ _ _ _ _ _ _ [] [] _ _
                 eq_refl H1 H2).
Qed.

Lemma dfs_traversal_snapshots_unique so1 so2 G f1 f2 start s1 s2 :
  dfs_traversal so1 G f1 start = Return s1 →
  dfs_traversal so2 G f2 start = Return s2 →
  snapshots s1 = snapshots s2.
Proof.
  intros [v1 H1]%dfs_traversal_inv [v2 H2]%dfs_traversal_inv.
  rewrite dfs_loop_wl in H1, H2.
  by destruct (wl_loop_snapshots_unique _ _ _ _ _ _ _ _ _ [] [] _ _
                 eq_refl H1 H2).
Qed.

Lemma snapshots_length steps : length (snapshots steps) = length steps.
Proof. unfold snapshots. apply length_fmap. Qed.

(** ** The traversal engine *)

Example bfs_on_G :
  bfs_traversal elements_iteration G 26 "A" =
  Return [["A"]; ["A"; "B"]; ["C"; "A"; "B"]; ["C"; "A"; "B"; "H"];
          ["C"; "A"; "B"; "D"; "H"]; ["C"; "E"; "A"; "B"; "D"; "H"];
          ["C"; "E"; "A"; "F"; "B"; "D"; "H"];
          ["G"; "C"; "E"; "A"; "F"; "B"; "D"; "H"];
          ["G"; "C"; "E"; "I"; "A"; "F"; "B"; "D"; "H"]].
Proof. vm_compute. reflexivity. Qed.

Example dfs_on_G :
  dfs_traversal elements_iteration G 26 "A" =
  Return [["A"]; ["A"; "B"]; ["A"; "B"; "D"]; ["E"; "A"; "B"; "D"];
          ["C"; "E"; "A"; "B"; "D"]; ["C"; "E"; "A"; "F"; "B"; "D"];
          ["G"; "C"; "E"; "A"; "F"; "B"; "D"];
          ["G"; "C"; "E"; "A"; "F"; "B"; "D"; "H"];
          ["G"; "C"; "E"; "I"; "A"; "F"; "B"; "D"; "H"]].
Proof. vm_compute. reflexivity. Qed.

Lemma A_in_G : "A" ∈ nodes G.
Proof. compute_done. Qed.

Lemma fuel_bound_G : fuel_bound G = 26.
Proof. vm_compute. reflexivity. Qed.

(** C4: on every closed graph and from every start node in it, both
    traversals return a step sequence whose snapshots each extend the
    previous one by exactly one node, whose final snapshot is the set of
    nodes reachable from the start, and whose length is the number of
    reachable nodes. *)
Theorem traversal_step_sequences so G start fuel :
  graph_closed G → start ∈ nodes G → fuel_bound G ≤ fuel →
  ∃ bfs_steps dfs_steps,
    bfs_traversal so G fuel start = Return bfs_steps ∧
    dfs_traversal so G fuel start = Return dfs_steps ∧
    step_sequence_of G start bfs_steps ∧
    step_sequence_of G start dfs_steps.
Proof.
  intros Hcl Hstart Hfuel.
  destruct (bfs_loop_from_start so G fuel start) as (rb & Hb & Hcb & Hrb);
    [done..|].
  destruct (dfs_loop_from_start so G fuel start) as (rd & Hd & Hcd & Hrd);
    [done..|].
  exists (steps rb), (steps rd). split_and!.
  - by apply bfs_traversal_Return.
  - by apply dfs_traversal_Return.
  - by eapply chain_step_sequence.
  - by eapply chain_step_sequence.
Qed.

Lemma traversal_step_sequences_witness :
  ∃ bfs_steps dfs_steps,
    bfs_traversal elements_iteration G 26 "A" = Return bfs_steps ∧
    dfs_traversal elements_iteration G 26 "A" = Return dfs_steps ∧
    step_sequence_of G "A" bfs_steps ∧
    step_sequence_of G "A" dfs_steps.
Proof.
  apply (traversal_step_sequences elements_iteration G "A" 26).
  - apply G_closed.
  - apply A_in_G.
  - rewrite fuel_bound_G. lia.
Defined.

(** C7: from a start node that is not in the graph, both traversals
    raise the graph's unknown-node error ([G.neighbors] fails on the first
    node taken) and return no step sequence. *)
Theorem traversal_unknown_start so G start fuel :
  start ∉ nodes G →
  bfs_traversal so G (S fuel) start = Raise (NetworkXError start) ∧
  dfs_traversal so G (S fuel) start = Raise (NetworkXError start).
Proof.
  intros Hstart.
  assert (neighbors G start = inl (NetworkXError start)) as Hn.
  { apply neighbors_inl. split; [|done].
    apply eq_None_not_Some. by rewrite adj_is_Some. }
  unfold bfs_traversal, dfs_traversal. simpl.
  rewrite decide_False by set_solver. by rewrite Hn.
Qed.

Lemma traversal_unknown_start_witness :
  ("Z" ∉ nodes G) ∧
  bfs_traversal elements_iteration G 1 "Z" = Raise (NetworkXError "Z") ∧
  dfs_traversal elements_iteration G 1 "Z" = Raise (NetworkXError "Z").
Proof.
  assert ("Z" ∉ nodes G) as HZ by compute_done.
  split; [exact HZ|].
  exact (traversal_unknown_start elements_iteration G "Z" 0 HZ).
Defined.

(** C9: on every closed graph and from every start node in it, both
    traversals return within [fuel_bound G] loop iterations, one per item
    ever queued or pushed (the start, and each node's neighbours once);
    a larger budget changes nothing. *)
Theorem traversals_terminate so G start fuel :
  graph_closed G → start ∈ nodes G → fuel_bound G ≤ fuel →
  (∃ steps, bfs_traversal so G (fuel_bound G) start = Return steps ∧
            bfs_traversal so G fuel start = Return steps) ∧
  (∃ steps, dfs_traversal so G (fuel_bound G) start = Return steps ∧
            dfs_traversal so G fuel start = Return steps).
Proof.
  intros Hcl Hstart Hfuel. split.
  - destruct (bfs_loop_from_start so G (fuel_bound G) start)
      as (r & Hr & _); [done..|].
    exists (steps r). split; apply bfs_traversal_Return; [done|].
    rewrite bfs_loop_wl in *. by eapply wl_loop_fuel_mono.
  - destruct (dfs_loop_from_start so G (fuel_bound G) start)
      as (r & Hr & _); [done..|].
    exists (steps r). split; apply dfs_traversal_Return; [done|].
    rewrite dfs_loop_wl in *. by eapply wl_loop_fuel_mono.
Qed.

Lemma traversals_terminate_witness :
  (∃ steps, bfs_traversal reverse_iteration G (fuel_bound G) "A" = Return steps ∧
            bfs_traversal reverse_iteration G 40 "A" = Return steps) ∧
  (∃ steps, dfs_traversal reverse_iteration G (fuel_bound G) "A" = Return steps ∧
            dfs_traversal reverse_iteration G 40 "A" = Return steps).
Proof.
  apply (traversals_terminate reverse_iteration G "A" 40).
  - apply G_closed.
  - apply A_in_G.
  - rewrite fuel_bound_G. lia.
Defined.

(** C10: on every closed graph and from every start node in it, two
    invocations of a traversal return the same sequence of visited-node
    sets, whatever order Python enumerates a set in on either occasion. *)
Theorem traversals_deterministic so1 so2 G start fuel1 fuel2 :
  graph_closed G → start ∈ nodes G →
  fuel_bound G ≤ fuel1 → fuel_bound G ≤ fuel2 →
  (∃ steps1 steps2,
     bfs_traversal so1 G fuel1 start = Return steps1 ∧
     bfs_traversal so2 G fuel2 start = Return steps2 ∧
     snapshots steps1 = snapshots steps2) ∧
  (∃ steps1 steps2,
     dfs_traversal so1 G fuel1 start = Return steps1 ∧
     dfs_traversal so2 G fuel2 start = Return steps2 ∧
     snapshots steps1 = snapshots steps2).
Proof.
  intros Hcl Hstart Hf1 Hf2.
  split.
  - destruct (bfs_loop_from_start so1 G fuel1 start)
      as (r1 & H1%bfs_traversal_Return & _); [done..|].
    destruct (bfs_loop_from_start so2 G fuel2 start)
      as (r2 & H2%bfs_traversal_Return & _); [done..|].
    exists (steps r1), (steps r2). split_and!; [done..|].
    by eapply bfs_traversal_snapshots_unique.
  - destruct (dfs_loop_from_start so1 G fuel1 start)
      as (r1 & H1%dfs_traversal_Return & _); [done..|].
    destruct (dfs_loop_from_start so2 G fuel2 start)
      as (r2 & H2%dfs_traversal_Return & _); [done..|].
    exists (steps r1), (steps r2). split_and!; [done..|].
    by eapply dfs_traversal_snapshots_unique.
Qed.

Lemma traversals_deterministic_witness :
  (∃ steps1 steps2,
     bfs_traversal elements_iteration G 26 "A" = Return steps1 ∧
     bfs_traversal reverse_iteration G 30 "A" = Return steps2 ∧
     snapshots steps1 = snapshots steps2) ∧
  (∃ steps1 steps2,
     dfs_traversal elements_iteration G 26 "A" = Return steps1 ∧
     dfs_traversal reverse_iteration G 30 "A" = Return steps2 ∧
     snapshots steps1 = snapshots steps2).
Proof.
  apply (traversals_deterministic elements_iteration reverse_iteration
           G "A" 26 30).
  - apply G_closed.
  - apply A_in_G.
  - rewrite fuel_bound_G. lia.
  - rewrite fuel_bound_G. lia.
Defined.

(** C5, as stated: the breadth-first order on the fixed graph is right,
    but the run does not leave eight distinct snapshots. *)
Lemma bfs_on_G_not_eight_snapshots :
  ¬ ∃ steps,
      bfs_traversal elements_iteration G 26 "A" = Return steps ∧
      visit_order steps = ["A"; "B"; "C"; "H"; "D"; "E"; "F"; "G"; "I"] ∧
      length (remove_dups (snapshots steps)) = 8.
Proof.
  intros (steps & Hsteps & _ & Hlen).
  rewrite bfs_on_G in Hsteps. injection Hsteps as <-.
  vm_compute in Hlen. discriminate.
Qed.

(** C5, amended: on the fixed graph, [bfs_traversal('A')] marks the nodes
    in the order A, B, C, H, D, E, F, G, I and returns nine snapshots, all
    distinct, one per node. *)
Theorem bfs_visit_order_on_G so fuel :
  fuel_bound G ≤ fuel →
  ∃ steps,
    bfs_traversal so G fuel "A" = Return steps ∧
    visit_order steps = ["A"; "B"; "C"; "H"; "D"; "E"; "F"; "G"; "I"] ∧
    length steps = 9 ∧
    length (remove_dups (snapshots steps)) = 9.
Proof.
  intros Hfuel.
  destruct (bfs_loop_from_start so G fuel "A" G_closed A_in_G Hfuel)
    as (r & Hr%bfs_traversal_Return & _).
  exists (steps r). split; [done|].
  pose proof (bfs_traversal_snapshots_unique _ _ _ _ _ _ _ _ Hr bfs_on_G)
    as Hsn.
  rewrite <-(snapshots_length (steps r)). unfold visit_order.
  rewrite Hsn. split_and!; vm_compute; reflexivity.
Qed.

Lemma bfs_visit_order_on_G_witness :
  ∃ steps,
    bfs_traversal reverse_iteration G 26 "A" = Return steps ∧
    visit_order steps = ["A"; "B"; "C"; "H"; "D"; "E"; "F"; "G"; "I"] ∧
    length steps = 9 ∧
    length (remove_dups (snapshots steps)) = 9.
Proof.
  apply (bfs_visit_order_on_G reverse_iteration 26).
  rewrite fuel_bound_G. lia.
Defined.

(** ** Depth-first order *)

Lemma dfs_loop_unfold so G fuel v st s :
  dfs_loop so G fuel v st s =
  match pop st with
  | None => Return (Locals v s)
  | Some (st', n) =>
      match fuel with
      | O => OutOfFuel
      | S fuel =>
          if decide (n ∈ v) then dfs_loop so G fuel v st' s
          else
            match neighbors G n with
            | inl e => Raise e
            | inr ns =>
                dfs_loop so G fuel (v ∪ {[n]}) (st' ++ reverse ns)
                  (s ++ [to_list so (v ∪ {[n]})])
            end
      end
  end.
Proof. by destruct fuel. Qed.

Lemma dfs_loop_fuel_mono so G fuel fuel' v st s r :
  dfs_loop so G fuel v st s = Return r → fuel ≤ fuel' →
  dfs_loop so G fuel' v st s = Return r.
Proof. rewrite !dfs_loop_wl. apply wl_loop_fuel_mono. Qed.

(** What lies below the top of the stack waits until the run from the
    top part is over. *)
Lemma dfs_loop_app so G fuel1 fuel2 v top below s r1 r2 :
  dfs_loop so G fuel1 v top s = Return r1 →
  dfs_loop so G fuel2 (visited r1) below (steps r1) = Return r2 →
  dfs_loop so G (fuel1 + fuel2) v (below ++ top) s = Return r2.
Proof.
  revert v top s.
  induction fuel1 as [|fuel1 IH]; intros v top s;
    destruct top as [|n top _] using rev_ind.
  - intros [= <-] H2. rewrite app_nil_r.
    eapply dfs_loop_fuel_mono; [done|lia].
  - by rewrite dfs_loop_unfold, pop_snoc.
  - intros [= <-] H2. rewrite app_nil_r.
    eapply dfs_loop_fuel_mono; [done|lia].
  - rewrite app_assoc. simpl plus.
    rewrite (dfs_loop_unfold _ _ (S fuel1)), (dfs_loop_unfold _ _ (S _)).
    rewrite !pop_snoc. case_decide; [apply IH|].
    destruct (neighbors G n) as [|ns]; [done|].
    rewrite <-app_assoc. apply IH.
Qed.

(** The first conjunct below: marking a node rewrites the stack. *)
Lemma dfs_loop_push_reversed so G fuel v stack s n ns :
  n ∉ v → neighbors G n = inr ns →
  dfs_loop so G (S fuel) v (stack ++ [n]) s
  = dfs_loop so G fuel (v ∪ {[n]}) (stack ++ reverse ns)
      (s ++ [to_list so (v ∪ {[n]})]).
Proof.
  intros Hn Hns. rewrite (dfs_loop_unfold _ _ (S _)), pop_snoc.
  by rewrite decide_False, Hns by done.
Qed.

Lemma dfs_loop_skip so G fuel v stack s n :
  n ∈ v →
  dfs_loop so G (S fuel) v (stack ++ [n]) s = dfs_loop so G fuel v stack s.
Proof.
  intros Hn. rewrite (dfs_loop_unfold _ _ (S _)), pop_snoc.
  by rewrite decide_True by done.
Qed.

Lemma preorder_fuel_mono G fuel : ∀ fuel' v ns r,
  preorder G fuel v ns = Some r → fuel ≤ fuel' →
  preorder G fuel' v ns = Some r.
Proof.
  induction fuel as [|fuel IH]; intros fuel' v [|n ns] r; simpl; try done.
  - by destruct fuel'.
  - by destruct fuel'.
  - destruct fuel' as [|fuel']; [lia|]. simpl. intros Hr Hle.
    case_decide; [apply IH; [done|lia]|].
    destruct (adj G n) as [ms|]; [|done].
    destruct (preorder G fuel (v ∪ {[n]}) ms) as [[v1 o1]|] eqn:H1; [|done].
    destruct (preorder G fuel v1 ns) as [[v2 o2]|] eqn:H2; [|done].
    rewrite (IH fuel' _ _ _ H1), (IH fuel' _ _ _ H2) by lia. done.
Qed.

Lemma preorder_subseteq G fuel : ∀ v ns v' o,
  preorder G fuel v ns = Some (v', o) → v ⊆ v'.
Proof.
  induction fuel as [|fuel IH]; intros v [|n ns] v' o; simpl; try done.
  - by intros [= <- _].
  - by intros [= <- _].
  - case_decide; [apply IH|].
    destruct (adj G n) as [ms|]; [|done].
    destruct (preorder G fuel (v ∪ {[n]}) ms) as [[v1 o1]|] eqn:H1; [|done].
    destruct (preorder G fuel v1 ns) as [[v2 o2]|] eqn:H2; [|done].
    intros [= <- _]. apply IH in H1, H2. set_solver.
Qed.

(** The exploration fits the budget of the loop. *)
Lemma preorder_terminates G fuel : ∀ v ns,
  graph_closed G → (∀ x, x ∈ ns → is_Some (adj G x)) →
  length ns + weight G v ≤ fuel →
  ∃ v' o, preorder G fuel v ns = Some (v', o).
Proof.
  induction fuel as [|fuel IH]; intros v [|n ns] Hcl Hns Hfuel; simpl in *;
    eauto; [lia|].
  case_decide as Hn.
  - apply IH; [done| |lia]. intros x Hx. apply Hns. by right.
  - destruct (Hns n) as [ms Hms]; [by left|]. rewrite Hms.
    pose proof (weight_visit G v n ms Hms Hn).
    destruct (IH (v ∪ {[n]}) ms) as (v1 & o1 & H1); [done| |lia|].
    { intros x Hx. apply (Hcl n). by exists ms. }
    rewrite H1.
    pose proof (weight_mono G v v1) as Hw.
    destruct (IH v1 ns) as (v2 & o2 & H2); [done| | |].
    { intros x Hx. apply Hns. by right. }
    { apply preorder_subseteq in H1.
      specialize (Hw ltac:(set_solver)). lia. }
    rewrite H2. eauto.
Qed.

(** The stack loop, started on the reversed list, marks the same nodes in
    the same order as the exploration. *)
Lemma preorder_dfs_loop so G fuel : ∀ v ns v' o s,
  chain ∅ (snapshots s) v →
  preorder G fuel v ns = Some (v', o) →
  ∃ fuel' s',
    dfs_loop so G fuel' v (reverse ns) s = Return (Locals v' s') ∧
    chain ∅ (snapshots s') v' ∧
    visit_order s' = visit_order s ++ o.
Proof.
  induction fuel as [|fuel IH]; intros v [|n ns] v' o s Hc; simpl; try done.
  - intros [= <- <-]. exists 0, s. by rewrite app_nil_r.
  - intros [= <- <-]. exists 0, s. by rewrite app_nil_r.
  - rewrite reverse_cons. case_decide as Hn.
    + intros (f & s' & Hloop & ? & ?)%(IH _ _ _ _ s); [|done].
      exists (S f), s'. by rewrite dfs_loop_skip.
    + destruct (adj G n) as [ms|] eqn:Hms; [|done].
      destruct (preorder G fuel (v ∪ {[n]}) ms) as [[v1 o1]|] eqn:H1; [|done].
      destruct (preorder G fuel v1 ns) as [[v2 o2]|] eqn:H2; [|done].
      intros [= <- <-].
      destruct (visit_order_snoc so s v n Hc Hn) as [Hc1 Ho1].
      destruct (IH _ _ _ _ _ Hc1 H1) as (f1 & s1 & Hl1 & Hc1' & Hs1).
      destruct (IH _ _ _ _ _ Hc1' H2) as (f2 & s2 & Hl2 & Hc2 & Hs2).
      exists (S (f1 + f2)), s2. split_and!; [|done|].
      * rewrite (dfs_loop_push_reversed so G _ v _ s n ms Hn)
          by (by apply neighbors_inr).
        by apply (dfs_loop_app so G f1 f2 _ _ _ _ (Locals v1 s1)).
      * rewrite Hs2, Hs1, Ho1. by rewrite <-!app_assoc.
Qed.

Lemma preorder_S_cons G fuel v n ns :
  preorder G (S fuel) v (n :: ns) =
  if decide (n ∈ v) then preorder G fuel v ns
  else
    match adj G n with
    | None => None
    | Some ms =>
        match preorder G fuel (v ∪ {[n]}) ms with
        | None => None
        | Some (v1, o1) =>
            match preorder G fuel v1 ns with
            | None => None
            | Some (v2, o2) => Some (v2, n :: o1 ++ o2)
            end
        end
    end.
Proof. done. Qed.

Lemma preorder_nil G fuel v : preorder G fuel v [] = Some (v, []).
Proof. by destruct fuel. Qed.

(** Exploring a list is exploring its head, then its tail. *)
Lemma preorder_cons G fuel v b rest v2 o :
  preorder G fuel v (b :: rest) = Some (v2, o) →
  ∃ v1 o1 o2,
    preorder G fuel v [b] = Some (v1, o1) ∧
    preorder G fuel v1 rest = Some (v2, o2) ∧
    o = o1 ++ o2.
Proof.
  destruct fuel as [|fuel]; [done|]. rewrite !preorder_S_cons.
  case_decide as Hb.
  - intros Hrest. exists v, [], o. rewrite preorder_nil.
    split_and!; [done| |done]. eapply preorder_fuel_mono; [done|lia].
  - destruct (adj G b) as [ms|]; [|done].
    destruct (preorder G fuel (v ∪ {[b]}) ms) as [[v1 o1]|] eqn:H1; [|done].
    destruct (preorder G fuel v1 rest) as [[v2' o2]|] eqn:H2; [|done].
    intros [= <- <-]. exists v1, (b :: o1), o2. rewrite preorder_nil.
    split_and!; [by rewrite app_nil_r| |done].
    eapply preorder_fuel_mono; [done|lia].
Qed.

(** C6: when [dfs_traversal] marks a node it pushes the node's neighbours
    in reverse adjacency order, and so explores them in adjacency order:
    on every closed graph and from every start node in it, the traversal
    returns, and the nodes are marked in the order of the depth-first
    exploration that takes the neighbours of each node as listed; in
    particular everything reached through the first neighbour of the
    start is marked before anything reached only through a later one. *)
Theorem dfs_explores_in_adjacency_order so G start fuel :
  graph_closed G → start ∈ nodes G → fuel_bound G ≤ fuel →
  (∀ f v stack s n ns,
     n ∉ v → neighbors G n = inr ns →
     dfs_loop so G (S f) v (stack ++ [n]) s
     = dfs_loop so G f (v ∪ {[n]}) (stack ++ reverse ns)
         (s ++ [to_list so (v ∪ {[n]})])) ∧
  ∃ steps v,
    dfs_traversal so G fuel start = Return steps ∧
    preorder G fuel ∅ [start] = Some (v, visit_order steps) ∧
    ∀ b rest, adj G start = Some (b :: rest) →
      ∃ v1 o1 v2 o2,
        preorder G fuel {[start]} [b] = Some (v1, o1) ∧
        preorder G fuel v1 rest = Some (v2, o2) ∧
        visit_order steps = start :: o1 ++ o2.
Proof.
  intros Hcl Hstart Hfuel.
  split; [intros; by apply dfs_loop_push_reversed|].
  assert (∀ x, x ∈ [start] → is_Some (adj G x)) as Hin.
  { intros x ->%list_elem_of_singleton. by apply adj_is_Some. }
  destruct (preorder_terminates G fuel ∅ [start] Hcl Hin) as (v & o & Hpre).
  { unfold fuel_bound in Hfuel. simpl. lia. }
  destruct (preorder_dfs_loop so G fuel ∅ [start] v o [] (chain_nil ∅) Hpre)
    as (f' & s' & Hloop & _ & Ho).
  change (reverse [start]) with [start] in Hloop.
  change (visit_order [] ++ o) with o in Ho.
  destruct (dfs_loop_from_start so G fuel start Hcl Hstart Hfuel)
    as (r & Hr & _).
  pose proof (dfs_loop_fuel_mono so G _ (f' `max` fuel) _ _ _ _ Hloop) as Hl1.
  pose proof (dfs_loop_fuel_mono so G _ (f' `max` fuel) _ _ _ _ Hr) as Hl2.
  rewrite Hl1 in Hl2 by lia. specialize (Hl2 ltac:(lia)).
  injection Hl2 as <-. apply dfs_traversal_Return in Hr. simpl in Hr.
  exists s', v. rewrite Ho. split_and!; [done..|].
  intros b rest Hadj. destruct fuel as [|fuel]; [done|].
  rewrite preorder_S_cons, decide_False, Hadj in Hpre by set_solver.
  rewrite (left_id_L ∅ (∪)) in Hpre.
  destruct (preorder G fuel {[start]} (b :: rest)) as [[v1 o1]|] eqn:H1;
    [|done].
  destruct (preorder_cons G fuel _ _ _ _ _ H1) as (w & p1 & p2 & Hb & Hrest & ->).
  rewrite preorder_nil in Hpre. injection Hpre as _ <-. rewrite app_nil_r.
  exists w, p1, v1, p2. split_and!; [| |done].
  - eapply preorder_fuel_mono; [done|lia].
  - eapply preorder_fuel_mono; [done|lia].
Qed.

Example preorder_on_G :
  ∃ v, preorder G 26 ∅ ["A"]
       = Some (v, ["A"; "B"; "D"; "E"; "C"; "F"; "G"; "H"; "I"]).
Proof. eexists. vm_compute. reflexivity. Qed.

Example preorder_on_G_from_B :
  ∃ v, preorder G 26 {["A"]} ["B"] = Some (v, ["B"; "D"; "E"]).
Proof. eexists. vm_compute. reflexivity. Qed.

Lemma dfs_explores_in_adjacency_order_witness :
  ∃ steps later,
    dfs_traversal reverse_iteration G 26 "A" = Return steps ∧
    visit_order steps = ["A"; "B"; "D"; "E"; "C"; "F"; "G"; "H"; "I"] ∧
    visit_order steps = "A" :: ["B"; "D"; "E"] ++ later.
Proof.
  assert (fuel_bound G ≤ 26) as Hfuel by (rewrite fuel_bound_G; lia).
  destruct (dfs_explores_in_adjacency_order reverse_iteration G "A" 26
              G_closed A_in_G Hfuel)
    as (_ & steps & v & Hdfs & Hpre & Hfirst).
  destruct preorder_on_G as [v0 Hv0].
  pose proof (eq_trans (eq_sym Hpre) Hv0) as Horder.
  injection Horder as _ Horder.
  assert (adj G "A" = Some ("B" :: ["C"; "H"])) as Hadj by reflexivity.
  destruct (Hfirst _ _ Hadj) as (v1 & o1 & v2 & o2 & Hb & _ & Hsplit).
  destruct preorder_on_G_from_B as [w Hw].
  pose proof (eq_trans (eq_sym Hb) Hw) as Ho1.
  injection Ho1 as _ ->.
  exists steps, o2. split; [exact Hdfs|]. split; [exact Horder|exact Hsplit].
Defined.

Lemma getitem_in_range {A} (l : list A) i :
  (0 ≤ i < Z.of_nat (length l))%Z → is_Some (getitem l i).
Proof.
  intros Hi. unfold getitem. rewrite decide_True by lia.
  apply lookup_lt_is_Some. lia.
Qed.

Ltac unfold_M :=
  unfold modify, get, raise, mbind, M_bind, mret, M_ret in *.

Lemma draw_current_step_eq G bs ds g :
  ∃ o t c,
    draw_current_step G bs ds g = (o, set_node_color c (set_ax_title t g)) ∧
    ((0 ≤ current_step g < Z.of_nat (length (active_steps bs ds g)))%Z →
     o = inr () ∧
     t = step_title (traversal_type g) (current_step g)
           (length (active_steps bs ds g))).
Proof.
  destruct g as [anim tt cs pl pa title col lbl].
  unfold draw_current_step, ax_clear, active_steps. unfold_M. simpl.
  set (steps := if decide (tt = "BFS") then bs else ds).
  destruct (decide (cs < Z.of_nat (length steps))%Z) as [Hlt|Hge].
  - destruct (nodes G) as [|n ns].
    + eexists _, _, _. split; [reflexivity|]. done.
    + destruct (getitem steps cs) as [snap|] eqn:Hsnap.
      * eexists _, _, _. split; [reflexivity|]. done.
      * eexists _, _, _. split; [reflexivity|]. intros Hr.
        apply getitem_in_range in Hr. rewrite Hsnap in Hr. by destruct Hr.
  - eexists _, _, _. split; [reflexivity|]. simpl. lia.
Qed.

Lemma draw_current_step_fields G bs ds g :
  let g' := (draw_current_step G bs ds g).2 in
  current_animation g' = current_animation g ∧
  traversal_type g' = traversal_type g ∧
  current_step g' = current_step g ∧
  is_playing g' = is_playing g ∧
  is_paused g' = is_paused g ∧
  btn_start_label g' = btn_start_label g.
Proof.
  destruct (draw_current_step_eq G bs ds g) as (o & t & c & -> & _).
  by destruct g.
Qed.

Lemma pause_animation_eq g :
  pause_animation g =
  if bool_decide (current_animation g ≠ None) && is_playing g then
    match current_animation g with
    | Some (MkAnimation n i (Some _)) =>
       (inr (), set_btn_start_label "Resume" (set_is_paused true (set_is_playing false
          (set_current_animation (Some (MkAnimation n i (Some false))) g))))
    | _ => (inl AttributeError, g)
    end
  else (inr (), g).
Proof.
  destruct g as [[[n i [b|]]|] tt cs pl pa title col lbl]; destruct pl; reflexivity.
Qed.

Lemma start_animation_eq G bs ds g :
  start_animation G bs ds g =
  if is_paused g then
    match current_animation g with
    | Some (MkAnimation n i (Some _)) =>
        (inr (),
         set_btn_start_label "Pause"
           (set_is_paused false
              (set_is_playing true
                 (set_current_animation
                    (Some (MkAnimation n i (Some true))) g))))
    | _ => (inl AttributeError, g)
    end
  else
    let started :=
      set_btn_start_label "Pause"
        (set_is_paused false
           (set_is_playing true
              (set_current_animation
                 (Some (MkAnimation (length (active_steps bs ds g)) 0
                          (Some true)))
                 (set_current_step 0 g)))) in
    match length (active_steps bs ds g) with
    | O => (inr (), started)
    | S _ => draw_current_step G bs ds started
    end.
Proof.
  destruct g as [anim tt cs pl [] title col lbl].
  - by destruct anim as [[n i [b|]]|].
  - unfold start_animation, animation_init_draw, draw_step, reset_to_beginning,
      active_steps.
    unfold_M. cbn -[draw_current_step].
    by destruct (length (if decide (tt = "BFS") then bs else ds)).
Qed.

(** ** Playback callbacks *)

(** C1, amended: [set_bfs] and [set_dfs] raise nothing, set the traversal
    type and put the step index back to 0; they leave the playback status
    and the animation with its timer as they are, also while playing.
    When nothing is playing they also set the title to "Selected <type> -
    Ready to Start"; while playing they write nothing else at all. *)
Theorem select_algorithm_resets_index g :
  let b := (set_bfs g).2 in
  let d := (set_dfs g).2 in
  (set_bfs g
   = (inr (),
      if is_playing g
      then set_current_step 0 (set_traversal_type "BFS" g)
      else set_ax_title "Selected BFS - Ready to Start"
             (set_current_step 0 (set_traversal_type "BFS" g))) ∧
   traversal_type b = "BFS" ∧ current_step b = 0%Z ∧
   status_of b = status_of g ∧ current_animation b = current_animation g) ∧
  (set_dfs g
   = (inr (),
      if is_playing g
      then set_current_step 0 (set_traversal_type "DFS" g)
      else set_ax_title "Selected DFS - Ready to Start"
             (set_current_step 0 (set_traversal_type "DFS" g))) ∧
   traversal_type d = "DFS" ∧ current_step d = 0%Z ∧
   status_of d = status_of g ∧ current_animation d = current_animation g).
Proof.
  destruct g as [anim tt cs [] pa title col lbl]; done.
Qed.

(** C1, as stated: selecting DFS two frames into a running BFS animation
    neither stops the timer nor leaves the playing state. *)
Lemma select_while_playing_keeps_playing :
  ∃ bs ds,
    precompute elements_iteration reverse_iteration 26 = Return (bs, ds) ∧
    let g := run G bs ds [ClickStart; TimerTick; TimerTick] (startup G) in
    let g' := dispatch G bs ds g ClickDFS in
    status_of g = Playing ∧
    status_of g' = Playing ∧
    current_animation g' = Some (MkAnimation 9 2 (Some true)).
Proof.
  eexists _, _. split; [vm_compute; reflexivity|].
  vm_compute. repeat split.
Qed.

(** C3, amended: below the last step, [next_step] raises the index by
    exactly one, pausing a live animation that is playing and leaving an
    idle or paused one alone; from the last step on (index >= len - 1)
    it does nothing and raises nothing. *)
Theorem next_step_advances G bs ds g :
  let n := Z.of_nat (length (active_steps bs ds g)) in
  let g' := (next_step G bs ds g).2 in
  ((current_step g < n - 1)%Z →
     current_step g' = (current_step g + 1)%Z ∧
     (∀ m i b, (0 ≤ current_step g)%Z → is_playing g = true →
        current_animation g = Some (MkAnimation m i (Some b)) →
        status_of g' = Paused ∧
        current_animation g' = Some (MkAnimation m i (Some false))) ∧
     (is_playing g = false →
        status_of g' = status_of g ∧
        current_animation g' = current_animation g)) ∧
  ((n - 1 ≤ current_step g)%Z → next_step G bs ds g = (inr (), g)).
Proof.
  intros n g'. split.
  - intros Hlt. subst g'. unfold next_step. unfold_M.
    rewrite decide_True by done.
    destruct (draw_current_step_eq G bs ds
                (set_current_step (current_step g + 1) g))
      as (o & t & c & Hd & Hin).
    rewrite Hd. clear Hd.
    destruct g as [anim tt cs pl pa title col lbl].
    subst n. unfold active_steps in *. cbn -[pause_animation] in *.
    split_and!.
    + destruct o as [e|[]]; [done|]. destruct pl; [|done].
      rewrite pause_animation_eq. by destruct anim as [[? ? [?|]]|].
    + intros m i b Hcs -> ->. destruct Hin as [-> _]; [lia|].
      done.
    + intros ->. by destruct o as [e|[]].
  - intros Hge. unfold next_step. unfold_M.
    by rewrite decide_False by (subst n; lia).
Qed.

Lemma step_title_not_complete t t' i n :
  t = "BFS" ∨ t = "DFS" → t' = "BFS" ∨ t' = "DFS" →
  step_title t i n ≠ complete_title t'.
Proof.
  unfold step_title, complete_title.
  generalize (pretty (i + 1)%Z +:+ "/" +:+ pretty (Z.of_nat n)).
  intros s [-> | ->] [-> | ->]; cbv [String.append]; congruence.
Qed.

Ltac solve_inv :=
  unfold playback_inv in *; simpl in *; split_and!;
  try done; try lia; auto.

Section PlaybackInvariant.
Variable G : Graph.
Variables bs ds : list (list node).
Variable n : nat.
Hypothesis Hbs : length bs = n.
Hypothesis Hds : length ds = n.

Lemma active_steps_length g : length (active_steps bs ds g) = n.
Proof. unfold active_steps. by case_decide. Qed.

Lemma set_current_step_inv i g :
  playback_inv n g → (0 ≤ i < Z.of_nat n)%Z →
  playback_inv n (set_current_step i g).
Proof. intros (? & ? & ? & ? & ?) ?. solve_inv. Qed.

Lemma draw_current_step_inv g :
  playback_inv n g → playback_inv n (draw_current_step G bs ds g).2.
Proof.
  intros (Hcs & Ht & Ha & _).
  destruct (draw_current_step_eq G bs ds g) as (o & t & c & -> & Hin).
  destruct Hin as [_ ->]; [by rewrite active_steps_length|].
  solve_inv; apply step_title_not_complete; auto.
Qed.

Lemma pause_animation_inv g :
  playback_inv n g → playback_inv n (pause_animation g).2.
Proof.
  intros (Hcs & Ht & Ha & Hb & Hd). rewrite pause_animation_eq.
  destruct g as [[[m i [b|]]|] tt cs [] pa title col lbl]; solve_inv.
  intros a [= <-]. by apply (Ha _ eq_refl).
Qed.

Lemma step_then_pause_inv i g :
  playback_inv n g → (0 ≤ i < Z.of_nat n)%Z →
  playback_inv n
    ((modify (set_current_step i);; draw_current_step G bs ds;;
      g ← get; if is_playing g then pause_animation else mret ()) g).2.
Proof.
  intros Hg Hi. unfold_M.
  pose proof (draw_current_step_inv _ (set_current_step_inv i g Hg Hi)) as Hd.
  destruct (draw_current_step G bs ds (set_current_step i g)) as [[e|[]] g1];
    [done|]. simpl in Hd.
  destruct (is_playing g1); [|done]. by apply pause_animation_inv.
Qed.

Lemma next_step_inv g :
  playback_inv n g → playback_inv n (next_step G bs ds g).2.
Proof.
  intros Hg. unfold next_step.
  change (get ≫= ?f) with (λ g, f g g). cbn beta.
  rewrite active_steps_length. case_decide; [|done].
  apply step_then_pause_inv; [done|]. destruct Hg as [? _]. lia.
Qed.

Lemma prev_step_inv g :
  playback_inv n g → playback_inv n (prev_step G bs ds g).2.
Proof.
  intros Hg. unfold prev_step.
  change (get ≫= ?f) with (λ g, f g g). cbn beta.
  case_decide; [|done].
  apply step_then_pause_inv; [done|]. destruct Hg as [? _]. lia.
Qed.

Lemma reset_graph_inv g :
  playback_inv n g → playback_inv n (reset_graph G g).2.
Proof.
  intros (Hcs & Ht & Ha & Hb & Hd).
  destruct g as [[[m i [b|]]|] tt cs pl pa title col lbl]; solve_inv.
Qed.

Lemma set_bfs_inv g : playback_inv n g → playback_inv n (set_bfs g).2.
Proof.
  intros (Hcs & Ht & Ha & Hb & Hd).
  destruct g as [anim tt cs [] pa title col lbl]; solve_inv.
Qed.

Lemma set_dfs_inv g : playback_inv n g → playback_inv n (set_dfs g).2.
Proof.
  intros (Hcs & Ht & Ha & Hb & Hd).
  destruct g as [anim tt cs [] pa title col lbl]; solve_inv.
Qed.

Lemma toggle_play_pause_inv g :
  playback_inv n g → playback_inv n (toggle_play_pause G bs ds g).2.
Proof.
  intros Hg. unfold toggle_play_pause.
  change (get ≫= ?f) with (λ g, f g g). cbn beta.
  destruct (is_playing g) eqn:Hpl; [by apply pause_animation_inv|].
  rewrite start_animation_eq.
  destruct (is_paused g) eqn:Hpa.
  - destruct Hg as (Hcs & Ht & Ha & Hb & Hd).
    destruct g as [[[m i [b|]]|] tt cs pl pa title col lbl]; solve_inv.
    intros a [= <-]. by apply (Ha _ eq_refl).
  - assert (playback_inv n
              (set_btn_start_label "Pause"
                 (set_is_paused false
                    (set_is_playing true
                       (set_current_animation
                          (Some (MkAnimation (length (active_steps bs ds g))
                                   0 (Some true)))
                          (set_current_step 0 g)))))) as Hstarted.
    { rewrite active_steps_length.
      destruct Hg as (Hcs & Ht & Ha & Hb & Hd).
      destruct g; solve_inv. by intros a [= <-]. }
    cbv zeta. destruct (length (active_steps bs ds g)); [done|].
    by apply draw_current_step_inv.
Qed.

Lemma timer_tick_inv g :
  playback_inv n g → playback_inv n (timer_tick G bs ds g).2.
Proof.
  intros Hg. unfold timer_tick.
  change (get ≫= ?f) with (λ g, f g g). cbn beta.
  destruct (current_animation g) as [[m i [[]|]]|] eqn:Hanim; try done.
  destruct Hg as (Hcs & Ht & Ha & Hb & Hd).
  pose proof (Ha _ Hanim) as Hm. simpl in Hm. subst m.
  case_decide as Hi.
  - unfold draw_step. unfold_M. simpl.
    apply draw_current_step_inv.
    destruct g; solve_inv. by intros a [= <-].
  - destruct g; solve_inv. by intros a [= <-].
Qed.

Lemma dispatch_inv g e :
  playback_inv n g → playback_inv n (dispatch G bs ds g e).
Proof.
  intros Hg. unfold dispatch.
  destruct e; simpl;
    eauto using set_bfs_inv, set_dfs_inv, toggle_play_pause_inv,
      reset_graph_inv, prev_step_inv, next_step_inv, timer_tick_inv.
  unfold on_key_press.
  repeat case_decide;
    eauto using toggle_play_pause_inv, reset_graph_inv, prev_step_inv,
      next_step_inv.
Qed.

Lemma run_inv es g : playback_inv n g → playback_inv n (run G bs ds es g).
Proof.
  revert g. induction es as [|e es IH]; intros g Hg; simpl; [done|].
  by apply IH, dispatch_inv.
Qed.

End PlaybackInvariant.

Lemma startup_inv G n : 0 < n → playback_inv n (startup G).
Proof. intros Hn. solve_inv. Qed.

Lemma precompute_lengths so_bfs so_dfs fuel bs ds :
  precompute so_bfs so_dfs fuel = Return (bs, ds) →
  length bs = 9 ∧ length ds = 9.
Proof.
  unfold precompute.
  destruct (bfs_traversal so_bfs G fuel "A") as [b| |] eqn:Hb; [|done..].
  destruct (dfs_traversal so_dfs G fuel "A") as [d| |] eqn:Hd; [|done..].
  simpl. intros [= <- <-].
  pose proof (bfs_traversal_snapshots_unique _ _ _ _ _ _ _ _ Hb bfs_on_G) as Hsb.
  pose proof (dfs_traversal_snapshots_unique _ _ _ _ _ _ _ _ Hd dfs_on_G) as Hsd.
  by rewrite <-(snapshots_length b), <-(snapshots_length d), Hsb, Hsd.
Qed.

(** C8: whatever events follow the module body, and whichever way each
    traversal enumerated its sets, the step index stays within
    [0, len - 1] of the active sequence, and the title never shows the
    rendering of the index == len branch. *)
Theorem playback_index_in_range so_bfs so_dfs fuel bs ds es :
  precompute so_bfs so_dfs fuel = Return (bs, ds) →
  let g := run G bs ds es (startup G) in
  (0 ≤ current_step g ≤ Z.of_nat (length (active_steps bs ds g)) - 1)%Z ∧
  ax_title g ≠ complete_title "BFS" ∧
  ax_title g ≠ complete_title "DFS".
Proof.
  intros [Hbs Hds]%precompute_lengths g.
  destruct (run_inv G bs ds 9 Hbs Hds es (startup G)) as (Hcs & _ & _ & Ht);
    [apply startup_inv; lia|].
  fold g in Hcs, Ht. rewrite (active_steps_length bs ds 9 Hbs Hds).
  split; [lia|done].
Qed.

Lemma playback_index_in_range_witness :
  ∃ bs ds,
    precompute elements_iteration reverse_iteration 26 = Return (bs, ds) ∧
    let g := run G bs ds
               [ClickStart; TimerTick; TimerTick; ClickNext; ClickDFS;
                KeyPress " "; TimerTick; TimerTick; TimerTick; TimerTick;
                TimerTick; TimerTick; TimerTick; TimerTick; ClickNext;
                KeyPress "right"] (startup G) in
    (0 ≤ current_step g ≤ Z.of_nat (length (active_steps bs ds g)) - 1)%Z ∧
    ax_title g ≠ complete_title "BFS" ∧
    ax_title g ≠ complete_title "DFS".
Proof.
  eexists _, _. split; [vm_compute; reflexivity|].
  apply (playback_index_in_range elements_iteration reverse_iteration 26).
  vm_compute. reflexivity.
Defined.

Lemma timer_tick_frame G bs ds g n i :
  current_animation g = Some (MkAnimation n i (Some true)) → i < n →
  let g' := (timer_tick G bs ds g).2 in
  current_animation g' = Some (MkAnimation n (S i) (Some true)) ∧
  current_step g' = Z.of_nat i.
Proof.
  intros Hanim Hi. unfold timer_tick.
  change (get ≫= ?f) with (λ g, f g g). cbn beta.
  rewrite Hanim, decide_True by done. unfold draw_step. unfold_M.
  cbn -[draw_current_step].
  destruct (draw_current_step_eq G bs ds
              (set_current_step (Z.of_nat i)
                 (set_current_animation
                    (Some (MkAnimation n (S i) (Some true))) g)))
    as (o & t & c & -> & _). done.
Qed.

Lemma timer_tick_last G bs ds g n i :
  current_animation g = Some (MkAnimation n i (Some true)) → n ≤ i →
  timer_tick G bs ds g
  = (inr (), set_current_animation (Some (MkAnimation n i None)) g).
Proof.
  intros Hanim Hi. unfold timer_tick.
  change (get ≫= ?f) with (λ g, f g g). cbn beta.
  by rewrite Hanim, decide_False by lia.
Qed.

Lemma timer_tick_stopped G bs ds g n i b :
  current_animation g = Some (MkAnimation n i b) → b ≠ Some true →
  timer_tick G bs ds g = (inr (), g).
Proof.
  intros Hanim Hb. unfold timer_tick.
  change (get ≫= ?f) with (λ g, f g g). cbn beta.
  rewrite Hanim. by destruct b as [[]|].
Qed.

Lemma dispatch_tick G bs ds g :
  dispatch G bs ds g TimerTick = (timer_tick G bs ds g).2.
Proof. reflexivity. Qed.

Lemma timer_ticks G bs ds k : ∀ g n i,
  current_animation g = Some (MkAnimation n i (Some true)) → i + k ≤ n →
  let gk := run G bs ds (replicate k TimerTick) g in
  current_animation gk = Some (MkAnimation n (i + k) (Some true)) ∧
  (0 < k → current_step gk = Z.of_nat (i + k - 1)).
Proof.
  induction k as [|k IH]; intros g n i Hanim Hk.
  - simpl. rewrite Nat.add_0_r. split; [done|lia].
  - change (run G bs ds (replicate (S k) TimerTick) g)
      with (run G bs ds (replicate k TimerTick) (dispatch G bs ds g TimerTick)).
    destruct (timer_tick_frame G bs ds g n i Hanim) as [Ha Hc]; [lia|].
    rewrite <-dispatch_tick in Ha, Hc.
    destruct (IH _ n (S i) Ha) as [Hak Hck]; [lia|].
    cbv zeta in *. rewrite Hak. split; [f_equal; f_equal; lia|].
    intros _. destruct k as [|k].
    + simpl. rewrite Hc. f_equal. lia.
    + rewrite Hck by lia. f_equal. lia.
Qed.

(** C2, amended: while the timer runs, each firing with a frame left sets
    the step index to that frame's number, the frames of an animation
    started on a sequence of length len being 0 .. len - 1 in turn; the
    firing after the last frame stops the timer for good, without looping,
    and leaves the index where it is, so playback ends at len - 1. *)
Theorem timer_tick_plays_frames G bs ds g n i k :
  current_animation g = Some (MkAnimation n i (Some true)) →
  i + k ≤ n →
  let shown := run G bs ds (replicate k TimerTick) g in
  let played := run G bs ds (replicate (n - i) TimerTick) g in
  let ended := dispatch G bs ds played TimerTick in
  current_animation shown = Some (MkAnimation n (i + k) (Some true)) ∧
  (0 < k → current_step shown = Z.of_nat (i + k - 1)) ∧
  current_animation ended = Some (MkAnimation n n None) ∧
  current_step ended = current_step played ∧
  dispatch G bs ds ended TimerTick = ended ∧
  ∀ g0, is_playing g0 = false → is_paused g0 = false →
    let started := (toggle_play_pause G bs ds g0).2 in
    current_animation started
    = Some (MkAnimation (length (active_steps bs ds g0)) 0 (Some true)) ∧
    current_step started = 0%Z.
Proof.
  intros Hanim Hk shown played ended.
  destruct (timer_ticks G bs ds k g n i Hanim Hk) as [Hs1 Hs2].
  destruct (timer_ticks G bs ds (n - i) g n i Hanim) as [Hp _]; [lia|].
  fold played in Hp. replace (i + (n - i)) with n in Hp by lia.
  assert (timer_tick G bs ds played
          = (inr (), set_current_animation (Some (MkAnimation n n None)) played))
    as Hend by (by apply timer_tick_last).
  assert (ended = set_current_animation (Some (MkAnimation n n None)) played)
    as -> by (subst ended; by rewrite dispatch_tick, Hend).
  split_and!; try done.
  intros g0 Hpl Hpa started. subst started. unfold toggle_play_pause.
  change (get ≫= ?f) with (λ g, f g g). cbn beta.
  rewrite Hpl, start_animation_eq, Hpa. cbv zeta.
  destruct (length (active_steps bs ds g0)); [by destruct g0|].
  match goal with
  | |- context [draw_current_step G bs ds ?g1] =>
      destruct (draw_current_step_fields G bs ds g1) as (-> & _ & -> & _)
  end.
  by destruct g0.
Qed.


Lemma timer_tick_plays_frames_witness :
  let bs := [["A"]; ["A"; "B"]; ["A"; "B"; "C"]] in
  let ds := [["A"]; ["A"; "B"]; ["A"; "B"; "D"]] in
  let g := run G bs ds [ClickStart] (startup G) in
  let played := run G bs ds (replicate (3 - 0) TimerTick) g in
  current_animation g = Some (MkAnimation 3 0 (Some true)) ∧
  current_step (run G bs ds (replicate 2 TimerTick) g) = Z.of_nat (0 + 2 - 1) ∧
  current_animation (dispatch G bs ds played TimerTick)
  = Some (MkAnimation 3 3 None).
Proof.
  intros bs ds g played.
  assert (current_animation g = Some (MkAnimation 3 0 (Some true))) as Hanim
    by (vm_compute; reflexivity).
  assert (0 + 2 ≤ 3) as Hk by lia.
  assert (0 < 2) as Hpos by lia.
  pose proof (timer_tick_plays_frames G bs ds g 3 0 2 Hanim Hk) as H.
  cbv zeta in H. destruct H as (_ & Hshown & Hended & _).
  split; [exact Hanim|]. split; [exact (Hshown Hpos)|exact Hended].
Defined.

(** C2, as stated: the first firing after Start leaves the index at 0, and
    however long the timer is left to fire the index ends at 8 of 9, with
    the timer gone and the playing flag still set. *)
Lemma playback_ends_at_last_step :
  ∃ bs ds,
    precompute elements_iteration reverse_iteration 26 = Return (bs, ds) ∧
    let g := run G bs ds [ClickStart] (startup G) in
    let g1 := dispatch G bs ds g TimerTick in
    let gend := run G bs ds (replicate 12 TimerTick) g in
    status_of g = Playing ∧ current_step g = 0%Z ∧ current_step g1 = 0%Z ∧
    length (active_steps bs ds gend) = 9 ∧ current_step gend = 8%Z ∧
    current_animation gend = Some (MkAnimation 9 9 None) ∧
    status_of gend = Playing.
Proof.
  eexists _, _. split; [vm_compute; reflexivity|].
  vm_compute. repeat split.
Qed.

Lemma next_step_advances_witness :
  let bs := [["A"]; ["A"; "B"]; ["A"; "B"; "C"]] in
  let ds := [["A"]; ["A"; "B"]; ["A"; "B"; "D"]] in
  let g := startup G in
  let g2 := set_current_step 2 (startup G) in
  (current_step g < Z.of_nat (length (active_steps bs ds g)) - 1)%Z ∧
  current_step (next_step G bs ds g).2 = (current_step g + 1)%Z ∧
  (Z.of_nat (length (active_steps bs ds g2)) - 1 ≤ current_step g2)%Z ∧
  next_step G bs ds g2 = (inr (), g2).
Proof.
  intros bs ds g g2.
  assert (current_step g < Z.of_nat (length (active_steps bs ds g)) - 1)%Z
    as Hlt by (vm_compute; reflexivity).
  assert (Z.of_nat (length (active_steps bs ds g2)) - 1 ≤ current_step g2)%Z
    as Hge by (vm_compute; discriminate).
  pose proof (next_step_advances G bs ds g) as H1. cbv zeta in H1.
  pose proof (next_step_advances G bs ds g2) as H2. cbv zeta in H2.
  destruct H1 as [Hadv _]. destruct (Hadv Hlt) as [Hidx _].
  destruct H2 as [_ Hnoop].
  split; [exact Hlt|]. split; [exact Hidx|]. split; [exact Hge|].
  exact (Hnoop Hge).
Defined.

(** C3, as stated: at index 8 of a sequence of 9 the index is below len,
    yet Next leaves it at 8. *)
Lemma next_step_stops_at_last_step :
  ∃ bs ds,
    precompute elements_iteration reverse_iteration 26 = Return (bs, ds) ∧
    let g := run G bs ds (replicate 8 ClickNext) (startup G) in
    current_step g = 8%Z ∧ length (active_steps bs ds g) = 9 ∧
    current_step (dispatch G bs ds g ClickNext) = 8%Z.
Proof.
  eexists _, _. split; [vm_compute; reflexivity|].
  vm_compute. repeat split.
Qed.

(** * Further properties of the playback callbacks *)

Lemma getitem_nonneg {A} (l : list A) i :
  (0 ≤ i)%Z → getitem l i = l !! Z.to_nat i.
Proof. intros Hi. unfold getitem. by rewrite decide_True. Qed.

Lemma draw_current_step_shown G bs ds g snap :
  (0 ≤ current_step g)%Z →
  active_steps bs ds g !! Z.to_nat (current_step g) = Some snap →
  draw_current_step G bs ds g
  = (inr (),
     set_node_color
       ((λ node, if decide (node ∈ snap) then "red" else "lightgray")
          <$> nodes G)
       (set_ax_title
          (step_title (traversal_type g) (current_step g)
             (length (active_steps bs ds g))) g)).
Proof.
  intros Hcs Hsnap. pose proof (lookup_lt_Some _ _ _ Hsnap) as Hlt.
  rewrite <-getitem_nonneg in Hsnap by done.
  destruct g as [anim tt cs pl pa title col lbl].
  unfold draw_current_step, ax_clear, active_steps in *. unfold_M.
  simpl in *.
  rewrite decide_True by lia. rewrite Hsnap.
  by destruct (nodes G).
Qed.

Lemma draw_current_step_complete G bs ds g :
  (Z.of_nat (length (active_steps bs ds g)) ≤ current_step g)%Z →
  draw_current_step G bs ds g
  = (inr (),
     set_node_color ((λ _, "red") <$> nodes G)
       (set_ax_title (complete_title (traversal_type g)) g)).
Proof.
  intros Hcs. destruct g as [anim tt cs pl pa title col lbl].
  unfold draw_current_step, ax_clear, active_steps in *. unfold_M.
  simpl in *. by rewrite decide_False by lia.
Qed.

(** X6: [draw_current_step] raises nothing and writes only the title and
    the node colours.  At an index inside the sequence the title is
    "<type> - Step <index+1>/<len>" and a node is red exactly when it is
    in that step's snapshot; at an index of len or more the title is
    "<type> - Complete" and every node is red. *)
Theorem draw_current_step_highlights G bs ds g :
  (∀ snap,
     (0 ≤ current_step g)%Z →
     active_steps bs ds g !! Z.to_nat (current_step g) = Some snap →
     draw_current_step G bs ds g
     = (inr (),
        set_node_color
          ((λ node, if decide (node ∈ snap) then "red" else "lightgray")
             <$> nodes G)
          (set_ax_title
             (step_title (traversal_type g) (current_step g)
                (length (active_steps bs ds g))) g))) ∧
  ((Z.of_nat (length (active_steps bs ds g)) ≤ current_step g)%Z →
     draw_current_step G bs ds g
     = (inr (),
        set_node_color ((λ _, "red") <$> nodes G)
          (set_ax_title (complete_title (traversal_type g)) g))).
Proof.
  split; [apply draw_current_step_shown|apply draw_current_step_complete].
Qed.

(** The globals once step [i], whose snapshot is [snap], is on screen. *)
Lemma goto_step_eq G bs ds i g snap :
  (0 ≤ i)%Z → active_steps bs ds g !! Z.to_nat i = Some snap →
  (modify (set_current_step i);; draw_current_step G bs ds;;
   g ← get; if is_playing g then pause_animation else mret ()) g
  = (if is_playing g then pause_animation else mret ())
      (draw_current_step G bs ds (set_current_step i g)).2.
Proof.
  intros Hi Hsnap. unfold_M.
  rewrite (draw_current_step_shown G bs ds (set_current_step i g) snap);
    [|done|by destruct g].
  by destruct g.
Qed.

Lemma active_steps_lookup_is_Some bs ds g i :
  (0 ≤ i < Z.of_nat (length (active_steps bs ds g)))%Z →
  is_Some (active_steps bs ds g !! Z.to_nat i).
Proof. intros Hi. apply lookup_lt_is_Some. lia. Qed.

Lemma prev_step_eq G bs ds g :
  (0 < current_step g ≤ Z.of_nat (length (active_steps bs ds g)))%Z →
  prev_step G bs ds g
  = (if is_playing g then pause_animation else mret ())
      (draw_current_step G bs ds
         (set_current_step (current_step g - 1) g)).2.
Proof.
  intros Hcs. unfold prev_step.
  change (get ≫= ?f) with (λ g, f g g). cbn beta.
  rewrite decide_True by lia.
  destruct (active_steps_lookup_is_Some bs ds g (current_step g - 1))
    as [snap Hsnap]; [lia|].
  by apply (goto_step_eq G bs ds _ g snap); [lia|].
Qed.

Lemma next_step_eq G bs ds g :
  (0 ≤ current_step g + 1 < Z.of_nat (length (active_steps bs ds g)))%Z →
  next_step G bs ds g
  = (if is_playing g then pause_animation else mret ())
      (draw_current_step G bs ds
         (set_current_step (current_step g + 1) g)).2.
Proof.
  intros Hcs. unfold next_step.
  change (get ≫= ?f) with (λ g, f g g). cbn beta.
  rewrite decide_True by lia.
  destruct (active_steps_lookup_is_Some bs ds g (current_step g + 1))
    as [snap Hsnap]; [lia|].
  by apply (goto_step_eq G bs ds _ g snap); [lia|].
Qed.


(** X1: above index 0, [prev_step] lowers the index by exactly one,
    pausing a live animation that is playing and leaving an idle or paused
    one alone; at index 0 or below it does nothing and raises nothing. *)
Theorem prev_step_retreats G bs ds g :
  let g' := (prev_step G bs ds g).2 in
  ((0 < current_step g)%Z →
     current_step g' = (current_step g - 1)%Z ∧
     (∀ m i b,
        (current_step g ≤ Z.of_nat (length (active_steps bs ds g)))%Z →
        is_playing g = true →
        current_animation g = Some (MkAnimation m i (Some b)) →
        status_of g' = Paused ∧
        current_animation g' = Some (MkAnimation m i (Some false))) ∧
     (is_playing g = false →
        status_of g' = status_of g ∧
        current_animation g' = current_animation g)) ∧
  ((current_step g ≤ 0)%Z → prev_step G bs ds g = (inr (), g)).
Proof.
  intros g'. split.
  - intros Hlt. subst g'. unfold prev_step. unfold_M.
    rewrite decide_True by lia.
    destruct (draw_current_step_eq G bs ds
                (set_current_step (current_step g - 1) g))
      as (o & t & c & Hd & Hin).
    rewrite Hd. clear Hd.
    destruct g as [anim tt cs pl pa title col lbl].
    unfold active_steps in *. cbn -[pause_animation] in *.
    split_and!.
    + destruct o as [e|[]]; [done|]. destruct pl; [|done].
      rewrite pause_animation_eq. by destruct anim as [[? ? [?|]]|].
    + intros m i b Hcs -> ->. destruct Hin as [-> _]; [lia|]. done.
    + intros ->. by destruct o as [e|[]].
  - intros Hge. unfold prev_step. unfold_M.
    by rewrite decide_False by lia.
Qed.

Lemma prev_step_retreats_witness :
  let bs := [["A"]; ["A"; "B"]; ["A"; "B"; "C"]] in
  let ds := [["A"]; ["A"; "B"]; ["A"; "B"; "D"]] in
  let g := set_current_step 2 (startup G) in
  let g0 := startup G in
  (0 < current_step g)%Z ∧
  current_step (prev_step G bs ds g).2 = (current_step g - 1)%Z ∧
  (current_step g0 ≤ 0)%Z ∧
  prev_step G bs ds g0 = (inr (), g0).
Proof.
  intros bs ds g g0.
  assert (0 < current_step g)%Z as Hlt by (vm_compute; reflexivity).
  assert (current_step g0 ≤ 0)%Z as Hle by (vm_compute; discriminate).
  pose proof (prev_step_retreats G bs ds g) as H1. cbv zeta in H1.
  pose proof (prev_step_retreats G bs ds g0) as H2. cbv zeta in H2.
  destruct H1 as [Hback _]. destruct (Hback Hlt) as [Hidx _].
  destruct H2 as [_ Hnoop].
  split; [exact Hlt|]. split; [exact Hidx|]. split; [exact Hle|].
  exact (Hnoop Hle).
Defined.

(** X5: while nothing is playing, Next followed by Prev (and Prev
    followed by Next) inside the sequence ends exactly where drawing the
    current step ends: the index is back and the step on screen is the one
    started from. *)
Theorem next_prev_round_trip G bs ds g :
  is_playing g = false →
  ((0 ≤ current_step g < Z.of_nat (length (active_steps bs ds g)) - 1)%Z →
     prev_step G bs ds (next_step G bs ds g).2
     = draw_current_step G bs ds g) ∧
  ((0 < current_step g < Z.of_nat (length (active_steps bs ds g)))%Z →
     next_step G bs ds (prev_step G bs ds g).2
     = draw_current_step G bs ds g).
Proof.
  intros Hpl. split; intros Hcs.
  - rewrite next_step_eq by lia. rewrite Hpl.
    destruct (active_steps_lookup_is_Some bs ds g (current_step g + 1))
      as [s1 Hs1]; [lia|].
    destruct (active_steps_lookup_is_Some bs ds g (current_step g))
      as [s0 Hs0]; [lia|].
    rewrite (draw_current_step_shown G bs ds _ s1); [|by destruct g; simpl in *; lia|by destruct g].
    rewrite prev_step_eq; [|destruct g; unfold active_steps in *; simpl in *; lia].
    rewrite (draw_current_step_shown G bs ds g s0) by (done || lia).
    destruct g as [anim tt cs pl pa title col lbl]. simpl in Hpl. subst pl.
    unfold active_steps in *. cbn -[draw_current_step] in *.
    replace (cs + 1 - 1)%Z with cs by lia.
    erewrite draw_current_step_shown; [reflexivity|simpl; lia|done].
  - rewrite prev_step_eq by lia. rewrite Hpl.
    destruct (active_steps_lookup_is_Some bs ds g (current_step g - 1))
      as [s1 Hs1]; [lia|].
    destruct (active_steps_lookup_is_Some bs ds g (current_step g))
      as [s0 Hs0]; [lia|].
    rewrite (draw_current_step_shown G bs ds _ s1); [|by destruct g; simpl in *; lia|by destruct g].
    rewrite next_step_eq; [|destruct g; unfold active_steps in *; simpl in *; lia].
    rewrite (draw_current_step_shown G bs ds g s0) by (done || lia).
    destruct g as [anim tt cs pl pa title col lbl]. simpl in Hpl. subst pl.
    unfold active_steps in *. cbn -[draw_current_step] in *.
    replace (cs - 1 + 1)%Z with cs by lia.
    erewrite draw_current_step_shown; [reflexivity|simpl; lia|done].
Qed.

Lemma timer_ticks_idle G bs ds k g :
  (∀ n i, current_animation g ≠ Some (MkAnimation n i (Some true))) →
  run G bs ds (replicate k TimerTick) g = g.
Proof.
  intros Hanim. induction k as [|k IH]; [done|].
  change (run G bs ds (replicate (S k) TimerTick) g)
    with (run G bs ds (replicate k TimerTick) (dispatch G bs ds g TimerTick)).
  rewrite dispatch_tick.
  destruct (current_animation g) as [[n i b]|] eqn:Ha.
  - rewrite (timer_tick_stopped G bs ds g n i b Ha); [done|].
    intros ->. by apply (Hanim n i).
  - unfold timer_tick. change (get ≫= ?f) with (λ g, f g g). cbn beta.
    by rewrite Ha.
Qed.

(** X2: [reset_graph] never raises and, from any state, leaves index 0,
    both flags cleared, the Start label, the reset title and every node
    light gray; a live animation is dropped (a finished one stays).
    Resetting twice is resetting once, and no timer firing changes the
    state afterwards. *)
Theorem reset_graph_resets G g :
  ∃ anim,
    reset_graph G g
    = (inr (),
       MkGlobals anim (traversal_type g) 0 false false
         "Graph Reset - Ready for Traversal"
         ((λ _, "lightgray") <$> nodes G) "Start") ∧
    (anim = None ∨
     ∃ n i, anim = Some (MkAnimation n i None) ∧ current_animation g = anim) ∧
    reset_graph G (reset_graph G g).2 = reset_graph G g ∧
    ∀ bs ds k,
      run G bs ds (replicate k TimerTick) (reset_graph G g).2
      = (reset_graph G g).2.
Proof.
  destruct g as [[[n i [b|]]|] tt cs pl pa title col lbl].
  - exists None. split_and!; [done|by left|done|].
    intros bs ds k. by apply timer_ticks_idle.
  - exists (Some (MkAnimation n i None)). split_and!; [done| |done|].
    + right. by exists n, i.
    + intros bs ds k. apply timer_ticks_idle. intros n' i'. simpl. congruence.
  - exists None. split_and!; [done|by left|done|].
    intros bs ds k. by apply timer_ticks_idle.
Qed.

(** X3: pausing a playing state with a live animation stops its timer
    and gives the Paused status with the Resume label, without touching
    the step index; pausing again changes nothing, and no timer firing
    changes the paused state. *)
Theorem pause_animation_freezes g n i b :
  is_playing g = true →
  current_animation g = Some (MkAnimation n i (Some b)) →
  let g' := (pause_animation g).2 in
  pause_animation g
  = (inr (),
     set_btn_start_label "Resume"
       (set_is_paused true
          (set_is_playing false
             (set_current_animation (Some (MkAnimation n i (Some false)))
                g)))) ∧
  status_of g' = Paused ∧
  current_step g' = current_step g ∧
  pause_animation g' = (inr (), g') ∧
  ∀ G bs ds k, run G bs ds (replicate k TimerTick) g' = g'.
Proof.
  intros Hpl Hanim g'.
  assert (pause_animation g
          = (inr (),
             set_btn_start_label "Resume"
               (set_is_paused true
                  (set_is_playing false
                     (set_current_animation
                        (Some (MkAnimation n i (Some false))) g))))) as Heq.
  { rewrite pause_animation_eq, Hpl, Hanim. done. }
  subst g'. rewrite Heq. split_and!; try done; try (by destruct g).
  intros G bs ds k. apply timer_ticks_idle. intros n' i'.
  destruct g; simpl. congruence.
Qed.

Lemma pause_animation_freezes_witness :
  let bs := [["A"]; ["A"; "B"]; ["A"; "B"; "C"]] in
  let ds := [["A"]; ["A"; "B"]; ["A"; "B"; "D"]] in
  let g := run G bs ds [ClickStart; TimerTick] (startup G) in
  is_playing g = true ∧
  current_animation g = Some (MkAnimation 3 1 (Some true)) ∧
  status_of (pause_animation g).2 = Paused ∧
  current_step (pause_animation g).2 = current_step g.
Proof.
  intros bs ds g.
  assert (is_playing g = true) as Hpl by (vm_compute; reflexivity).
  assert (current_animation g = Some (MkAnimation 3 1 (Some true))) as Hanim
    by (vm_compute; reflexivity).
  pose proof (pause_animation_freezes g 3 1 true Hpl Hanim) as H.
  cbv zeta in H. destruct H as (_ & Hst & Hcs & _).
  split; [exact Hpl|]. split; [exact Hanim|]. split; [exact Hst|exact Hcs].
Defined.

(** X4: pause then resume is the identity on a playing state with a
    running timer: the animation continues at the same frame and the index
    is not reset. *)
Theorem pause_resume_round_trip G bs ds g n i :
  is_playing g = true → is_paused g = false →
  current_animation g = Some (MkAnimation n i (Some true)) →
  btn_start_label g = "Pause" →
  toggle_play_pause G bs ds (toggle_play_pause G bs ds g).2 = (inr (), g).
Proof.
  intros Hpl Hpa Hanim Hlbl.
  destruct g as [anim tt cs pl pa title col lbl]. simpl in *. by subst.
Qed.

Lemma pause_resume_round_trip_witness :
  let bs := [["A"]; ["A"; "B"]; ["A"; "B"; "C"]] in
  let ds := [["A"]; ["A"; "B"]; ["A"; "B"; "D"]] in
  let g := run G bs ds [ClickStart; TimerTick] (startup G) in
  toggle_play_pause G bs ds (toggle_play_pause G bs ds g).2 = (inr (), g).
Proof.
  intros bs ds g.
  assert (is_playing g = true) as Hpl by (vm_compute; reflexivity).
  assert (is_paused g = false) as Hpa by (vm_compute; reflexivity).
  assert (current_animation g = Some (MkAnimation 3 1 (Some true))) as Hanim
    by (vm_compute; reflexivity).
  assert (btn_start_label g = "Pause") as Hlbl by (vm_compute; reflexivity).
  exact (pause_resume_round_trip G bs ds g 3 1 Hpl Hpa Hanim Hlbl).
Defined.

(** ** The controls stay consistent *)

Ltac solve_controls :=
  unfold controls_inv, status_of in *; simpl in *; split_and!;
  try done; try congruence; eauto.

Lemma controls_inv_fields g g' :
  current_animation g' = current_animation g →
  is_playing g' = is_playing g →
  is_paused g' = is_paused g →
  btn_start_label g' = btn_start_label g →
  controls_inv g → controls_inv g'.
Proof.
  unfold controls_inv, status_of. by intros -> -> -> ->.
Qed.

Lemma draw_current_step_controls G bs ds g :
  controls_inv g → controls_inv (draw_current_step G bs ds g).2.
Proof.
  destruct (draw_current_step_fields G bs ds g) as (? & _ & _ & ? & ? & ?).
  by apply controls_inv_fields.
Qed.

Lemma pause_animation_controls g :
  controls_inv g → controls_inv (pause_animation g).2.
Proof.
  intros (Hl & Hpp & Hpa & Hpl & Hid). rewrite pause_animation_eq.
  destruct g as [[[m i [b|]]|] tt cs [] pa title col lbl]; solve_controls.
Qed.

Lemma step_then_pause_controls G bs ds i g :
  controls_inv g →
  controls_inv
    ((modify (set_current_step i);; draw_current_step G bs ds;;
      g ← get; if is_playing g then pause_animation else mret ()) g).2.
Proof.
  intros Hg. unfold_M.
  assert (controls_inv (set_current_step i g)) as Hs
    by (by apply (controls_inv_fields g)).
  pose proof (draw_current_step_controls G bs ds _ Hs) as Hd.
  destruct (draw_current_step G bs ds (set_current_step i g)) as [[e|[]] g1];
    [done|]. simpl in Hd.
  destruct (is_playing g1); [|done]. by apply pause_animation_controls.
Qed.

Lemma next_step_controls G bs ds g :
  controls_inv g → controls_inv (next_step G bs ds g).2.
Proof.
  intros Hg. unfold next_step.
  change (get ≫= ?f) with (λ g, f g g). cbn beta.
  case_decide; [|done]. by apply step_then_pause_controls.
Qed.

Lemma prev_step_controls G bs ds g :
  controls_inv g → controls_inv (prev_step G bs ds g).2.
Proof.
  intros Hg. unfold prev_step.
  change (get ≫= ?f) with (λ g, f g g). cbn beta.
  case_decide; [|done]. by apply step_then_pause_controls.
Qed.

Lemma reset_graph_controls G g : controls_inv (reset_graph G g).2.
Proof.
  destruct g as [[[m i [b|]]|] tt cs pl pa title col lbl]; solve_controls.
Qed.

Lemma set_bfs_controls g : controls_inv g → controls_inv (set_bfs g).2.
Proof.
  apply controls_inv_fields; by destruct g as [? ? ? [] ? ? ? ?].
Qed.

Lemma set_dfs_controls g : controls_inv g → controls_inv (set_dfs g).2.
Proof.
  apply controls_inv_fields; by destruct g as [? ? ? [] ? ? ? ?].
Qed.

Lemma toggle_play_pause_controls G bs ds g :
  controls_inv g → controls_inv (toggle_play_pause G bs ds g).2.
Proof.
  intros Hg. unfold toggle_play_pause.
  change (get ≫= ?f) with (λ g, f g g). cbn beta.
  destruct (is_playing g) eqn:Hpl; [by apply pause_animation_controls|].
  rewrite start_animation_eq.
  destruct (is_paused g) eqn:Hpaused.
  - destruct Hg as (Hl & Hpp & Hpa & Hplay & Hid).
    destruct (Hpa Hpaused) as (n & i & Hanim). rewrite Hanim.
    destruct g; solve_controls.
  - cbv zeta.
    assert (controls_inv
              (set_btn_start_label "Pause"
                 (set_is_paused false
                    (set_is_playing true
                       (set_current_animation
                          (Some (MkAnimation (length (active_steps bs ds g))
                                   0 (Some true)))
                          (set_current_step 0 g)))))) as Hstarted
      by (destruct g; solve_controls).
    destruct (length (active_steps bs ds g)); [done|].
    by apply draw_current_step_controls.
Qed.

Lemma timer_tick_controls G bs ds g :
  controls_inv g → controls_inv (timer_tick G bs ds g).2.
Proof.
  intros Hg. unfold timer_tick.
  change (get ≫= ?f) with (λ g, f g g). cbn beta.
  destruct (current_animation g) as [[m i [[]|]]|] eqn:Hanim; try done.
  destruct Hg as (Hl & Hpp & Hpa & Hplay & Hid).
  case_decide as Hi.
  - unfold draw_step. unfold_M. simpl.
    apply draw_current_step_controls.
    destruct g as [anim tt cs [] [] title col lbl]; simpl in *; subst;
      solve_controls.
    all: try (by destruct Hpa as (? & ? & ?)).
    all: by specialize (Hid eq_refl eq_refl _ _ _ eq_refl).
  - destruct g as [anim tt cs [] [] title col lbl]; simpl in *; subst;
      solve_controls.
    all: try (by destruct Hpa as (? & ? & ?)).
    all: by specialize (Hid eq_refl eq_refl _ _ _ eq_refl).
Qed.

Lemma dispatch_controls G bs ds g e :
  controls_inv g → controls_inv (dispatch G bs ds g e).
Proof.
  intros Hg. unfold dispatch.
  destruct e; simpl;
    eauto using set_bfs_controls, set_dfs_controls,
      toggle_play_pause_controls, reset_graph_controls, prev_step_controls,
      next_step_controls, timer_tick_controls.
  unfold on_key_press.
  repeat case_decide;
    eauto using toggle_play_pause_controls, reset_graph_controls,
      prev_step_controls, next_step_controls.
Qed.

(** X7: after any events from the start of the program, and whatever the
    two step sequences are, the button label matches the status, the two
    flags are never both set, a paused state holds a live animation with
    a stopped timer, a playing state holds an animation whose timer runs
    or which has finished, and an idle state holds no live animation. *)
Theorem controls_stay_consistent G bs ds es :
  controls_inv (run G bs ds es (startup G)).
Proof.
  unfold run. generalize (reset_graph_controls G
    (MkGlobals None "BFS" 0 false false "" [] "Start")).
  fold (startup G). generalize (startup G).
  induction es as [|e es IH]; intros g Hg; simpl; [done|].
  by apply IH, dispatch_controls.
Qed.

(** ** When a callback raises *)

Lemma pause_animation_raises g x :
  (pause_animation g).1 = inl x → x = AttributeError ∧ finished_playing g.
Proof.
  rewrite pause_animation_eq. unfold finished_playing.
  destruct g as [[[m i [b|]]|] tt cs [] pa title col lbl]; simpl;
    try done.
  intros [= <-]. eauto.
Qed.

Section CallbackErrors.
Variable G : Graph.
Variables bs ds : list (list node).
Variable n : nat.
Hypothesis Hbs : length bs = n.
Hypothesis Hds : length ds = n.

Lemma step_then_pause_raises i g x :
  (0 ≤ i < Z.of_nat n)%Z →
  ((modify (set_current_step i);; draw_current_step G bs ds;;
    g ← get; if is_playing g then pause_animation else mret ()) g).1
  = inl x →
  x = AttributeError ∧ finished_playing g.
Proof.
  intros Hi.
  destruct (active_steps_lookup_is_Some bs ds g i) as [snap Hsnap].
  { by rewrite (active_steps_length bs ds n Hbs Hds). }
  rewrite (goto_step_eq G bs ds i g snap) by (done || lia).
  rewrite (draw_current_step_shown G bs ds _ snap);
    [|by destruct g; simpl; lia|by destruct g].
  destruct (is_playing g) eqn:Hpl; [|done].
  intros [-> [_ Hf]]%pause_animation_raises. split; [done|].
  split; [done|]. by destruct g.
Qed.

Lemma callback_raises e g x :
  playback_inv n g → controls_inv g →
  (callback G bs ds e g).1 = inl x →
  x = AttributeError ∧ finished_playing g.
Proof.
  intros (Hcs & _ & Hfr & _) (_ & _ & Hpa & _ & _).
  assert (∀ x, (toggle_play_pause G bs ds g).1 = inl x →
               x = AttributeError ∧ finished_playing g) as Htoggle.
  { intros y. unfold toggle_play_pause.
    change (get ≫= ?f) with (λ g, f g g). cbn beta.
    destruct (is_playing g) eqn:Hpl; [apply pause_animation_raises|].
    rewrite start_animation_eq.
    destruct (is_paused g) eqn:Hpaused.
    { destruct (Hpa eq_refl) as (m & i & ->). done. }
    cbv zeta.
    destruct (active_steps bs ds g) as [|snap steps] eqn:Hsteps; [done|].
    simpl length.
    erewrite (draw_current_step_shown G bs ds _ snap); [done|by destruct g|].
    destruct g; unfold active_steps in *; simpl in *. by rewrite Hsteps. }
  assert (∀ x, (next_step G bs ds g).1 = inl x →
               x = AttributeError ∧ finished_playing g) as Hnext.
  { intros y. unfold next_step.
    change (get ≫= ?f) with (λ g, f g g). cbn beta.
    rewrite (active_steps_length bs ds n Hbs Hds).
    case_decide; [|done]. apply step_then_pause_raises. lia. }
  assert (∀ x, (prev_step G bs ds g).1 = inl x →
               x = AttributeError ∧ finished_playing g) as Hprev.
  { intros y. unfold prev_step.
    change (get ≫= ?f) with (λ g, f g g). cbn beta.
    case_decide; [|done]. apply step_then_pause_raises. lia. }
  assert (∀ x, (reset_graph G g).1 = inl x → False) as Hreset.
  { intros y. by destruct g as [[[? ? [?|]]|] ? ? ? ? ? ? ?]. }
  destruct e; simpl; auto.
  - by destruct g as [? ? ? [] ? ? ? ?].
  - by destruct g as [? ? ? [] ? ? ? ?].
  - intros []%Hreset.
  - unfold on_key_press. repeat case_decide; auto; [|done].
    intros []%Hreset.
  - unfold timer_tick. change (get ≫= ?f) with (λ g, f g g). cbn beta.
    destruct (current_animation g) as [[m i [[]|]]|] eqn:Hanim; try done.
    pose proof (Hfr _ eq_refl) as Hm. simpl in Hm. subst m.
    case_decide as Hi; [|done].
    unfold draw_step. unfold_M. simpl.
    destruct (active_steps_lookup_is_Some bs ds g (Z.of_nat i))
      as [snap Hsnap].
    { rewrite (active_steps_length bs ds n Hbs Hds). lia. }
    rewrite (draw_current_step_shown G bs ds _ snap).
    + done.
    + destruct g; simpl; lia.
    + by destruct g.
Qed.
End CallbackErrors.

Lemma run_controls G bs ds es g :
  controls_inv g → controls_inv (run G bs ds es g).
Proof.
  revert g. induction es as [|e es IH]; intros g Hg; simpl; [done|].
  by apply IH, dispatch_controls.
Qed.

Lemma startup_controls G : controls_inv (startup G).
Proof. apply reset_graph_controls. Qed.

(** X8: in the running program, whichever way each traversal's sets were
    enumerated, no callback ever fails on [steps[current_step]]: the
    index is inside the active sequence wherever it is used. *)
Theorem callbacks_index_in_bounds so_bfs so_dfs fuel bs ds es e :
  precompute so_bfs so_dfs fuel = Return (bs, ds) →
  let g := run G bs ds es (startup G) in
  (callback G bs ds e g).1 ≠ inl IndexError.
Proof.
  intros [Hbs Hds]%precompute_lengths g.
  assert (playback_inv 9 g) as Hinv
    by (apply run_inv, startup_inv; (done || lia)).
  assert (controls_inv g) as Hctl by apply run_controls, startup_controls.
  intros He.
  by destruct (callback_raises G bs ds 9 Hbs Hds e g _ Hinv Hctl He).
Qed.

(** X9: in the running program, whichever way each traversal's sets were
    enumerated, a callback raises only in one situation: the playing flag
    is still set although the animation has run out of frames, and the
    exception is the AttributeError of calling a method on its [None]
    event source. *)
Theorem callbacks_raise_only_when_finished so_bfs so_dfs fuel bs ds es e x :
  precompute so_bfs so_dfs fuel = Return (bs, ds) →
  let g := run G bs ds es (startup G) in
  (callback G bs ds e g).1 = inl x →
  x = AttributeError ∧ is_playing g = true ∧
  ∃ n i, current_animation g = Some (MkAnimation n i None).
Proof.
  intros [Hbs Hds]%precompute_lengths g He.
  assert (playback_inv 9 g) as Hinv
    by (apply run_inv, startup_inv; (done || lia)).
  assert (controls_inv g) as Hctl by apply run_controls, startup_controls.
  by destruct (callback_raises G bs ds 9 Hbs Hds e g _ Hinv Hctl He).
Qed.

(** * Further properties of the traversal engine *)

Lemma covers_start G start : covers G start ∅ [start].
Proof.
  unfold covers. split_and!; [set_solver|..|set_solver|set_solver].
  intros x ->%list_elem_of_singleton. apply rtc_refl.
Qed.

(** Whatever a worklist loop returns from [start] is a step sequence of
    the nodes reachable from it, closed graph or not. *)
Lemma bfs_traversal_Return_step_sequence so G fuel start steps :
  bfs_traversal so G fuel start = Return steps →
  step_sequence_of G start steps.
Proof.
  intros [v Hr]%bfs_traversal_inv. rewrite bfs_loop_wl in Hr.
  destruct (wl_loop_chain _ _ _ _ _ _ _ _ _ Hr) as (new & Hnew & Hc).
  simpl in *. subst new.
  apply (chain_step_sequence G start steps v Hc), covers_reachable.
  exact (wl_loop_covers G take_front push_unvisited take_front_None
           take_front_Some push_unvisited_elem push_unvisited_rest
           push_unvisited_new push_unvisited_length so start fuel ∅ [start]
           [] _ (covers_start G start) Hr).
Qed.

Lemma dfs_traversal_Return_step_sequence so G fuel start steps :
  dfs_traversal so G fuel start = Return steps →
  step_sequence_of G start steps.
Proof.
  intros [v Hr]%dfs_traversal_inv. rewrite dfs_loop_wl in Hr.
  destruct (wl_loop_chain _ _ _ _ _ _ _ _ _ Hr) as (new & Hnew & Hc).
  simpl in *. subst new.
  apply (chain_step_sequence G start steps v Hc), covers_reachable.
  exact (wl_loop_covers G pop push_reversed pop_None pop_Some_perm
           push_reversed_elem push_reversed_rest push_reversed_new
           push_reversed_length so start fuel ∅ [start] [] _
           (covers_start G start) Hr).
Qed.

(** X10: whenever the two traversals return from the same start, however
    each of them enumerates its sets, their step sequences have the same
    length and the same final snapshot. *)
Theorem traversals_agree so_bfs so_dfs G fuel1 fuel2 start bfs_steps dfs_steps :
  bfs_traversal so_bfs G fuel1 start = Return bfs_steps →
  dfs_traversal so_dfs G fuel2 start = Return dfs_steps →
  length bfs_steps = length dfs_steps ∧
  last (snapshots bfs_steps) = last (snapshots dfs_steps).
Proof.
  intros (_ & fb & Hlb & Hrb & Hnb)%bfs_traversal_Return_step_sequence
         (_ & fd & Hld & Hrd & Hnd)%dfs_traversal_Return_step_sequence.
  assert (fb = fd) as -> by (apply set_eq; intros x; by rewrite Hrb, Hrd).
  split; congruence.
Qed.

Example dfs_on_G_reversed :
  ∃ dfs_steps, dfs_traversal reverse_iteration G 26 "A" = Return dfs_steps.
Proof. eexists. vm_compute. reflexivity. Qed.

Lemma traversals_agree_witness :
  ∃ bfs_steps dfs_steps,
    bfs_traversal elements_iteration G 26 "A" = Return bfs_steps ∧
    dfs_traversal reverse_iteration G 26 "A" = Return dfs_steps ∧
    length bfs_steps = length dfs_steps ∧
    last (snapshots bfs_steps) = last (snapshots dfs_steps).
Proof.
  destruct dfs_on_G_reversed as [d Hd].
  eexists _, d. split; [exact bfs_on_G|]. split; [exact Hd|].
  exact (traversals_agree elements_iteration reverse_iteration G 26 26 "A"
           _ d bfs_on_G Hd).
Defined.

Lemma chain_elem_of v snaps v' (x : node) snap :
  chain v snaps v' → x ∈ v → snap ∈ snaps → x ∈ snap.
Proof.
  induction 1 as [|v y snaps v' Hy _ IH]; [by intros _ ?%elem_of_nil|].
  intros Hx [->|?]%elem_of_cons; [set_solver|]. apply IH; [set_solver|done].
Qed.

(** X11: a step sequence returned by either traversal begins with the
    snapshot holding just the start node, and every later snapshot
    contains the start node. *)
Theorem traversals_start_at_start so G fuel start steps :
  bfs_traversal so G fuel start = Return steps ∨
  dfs_traversal so G fuel start = Return steps →
  head (snapshots steps) = Some {[start]} ∧
  ∀ snap, snap ∈ snapshots steps → start ∈ snap.
Proof.
  intros Hret.
  assert (∃ v, wl_loop so G take_front push_unvisited fuel ∅ [start] []
               = Return (Locals v steps) ∨
               wl_loop so G pop push_reversed fuel ∅ [start] []
               = Return (Locals v steps)) as [v Hr].
  { destruct Hret as [[v Hr]%bfs_traversal_inv|[v Hr]%dfs_traversal_inv];
      exists v; [left; by rewrite <-bfs_loop_wl|right; by rewrite <-dfs_loop_wl]. }
  assert (∃ new v1, steps = [to_list so (∅ ∪ {[start]})] ++ new ∧
                    chain (∅ ∪ {[start]}) (snapshots new) v1)
    as (new & v1 & -> & Hc).
  { destruct fuel as [|fuel]; [by destruct Hr|].
    destruct Hr as [Hr|Hr]; simpl in Hr;
      rewrite decide_False in Hr by set_solver;
      destruct (neighbors G start); try done;
      apply wl_loop_chain in Hr as (new & Hnew & Hc); simpl in *; eauto. }
  unfold snapshots in *. csimpl. rewrite to_list_spec.
  split; [f_equal; set_solver|].
  intros snap [->|Hin]%elem_of_cons; [set_solver|].
  eapply chain_elem_of; [exact Hc|set_solver|done].
Qed.

Lemma traversals_start_at_start_witness :
  ∃ steps,
    bfs_traversal elements_iteration G 26 "A" = Return steps ∧
    head (snapshots steps) = Some {["A"]}.
Proof.
  eexists. split; [exact bfs_on_G|].
  exact (proj1 (traversals_start_at_start elements_iteration G 26 "A" _
                  (or_introl bfs_on_G))).
Defined.

(** X12: from a start node without neighbours both traversals return
    the single snapshot holding the start node, after one iteration. *)
Theorem traversal_of_isolated_start so G fuel start :
  adj G start = Some [] →
  bfs_traversal so G (S fuel) start = Return [to_list so {[start]}] ∧
  dfs_traversal so G (S fuel) start = Return [to_list so {[start]}].
Proof.
  intros Hadj. apply neighbors_inr in Hadj.
  unfold bfs_traversal, dfs_traversal. simpl.
  rewrite decide_False by set_solver. rewrite Hadj. simpl.
  rewrite (left_id_L ∅ (∪)), decide_False by set_solver.
  split; by destruct fuel.
Qed.

Lemma traversal_of_isolated_start_witness :
  adj [("A", [])] "A" = Some [] ∧
  bfs_traversal elements_iteration [("A", [])] 1 "A" = Return [["A"]] ∧
  dfs_traversal elements_iteration [("A", [])] 1 "A" = Return [["A"]].
Proof.
  assert (adj [("A", [])] "A" = Some []) as Hadj by reflexivity.
  split; [exact Hadj|].
  exact (traversal_of_isolated_start elements_iteration [("A", [])] 0 "A" Hadj).
Defined.

(** X13: drawing the last step of a sequence returned by either
    traversal colours one entry per node of the graph, red for exactly the
    nodes reachable from the start and light gray for the others. *)
Theorem last_step_highlights_reachable so G fuel start bs ds g :
  bfs_traversal so G fuel start = Return (active_steps bs ds g) ∨
  dfs_traversal so G fuel start = Return (active_steps bs ds g) →
  current_step g = (Z.of_nat (length (active_steps bs ds g)) - 1)%Z →
  let g' := (draw_current_step G bs ds g).2 in
  length (node_color g') = length (nodes G) ∧
  ∀ k node, nodes G !! k = Some node →
    (reachable G start node → node_color g' !! k = Some "red") ∧
    (¬ reachable G start node → node_color g' !! k = Some "lightgray").
Proof.
  intros Hret Hcs g'.
  assert (step_sequence_of G start (active_steps bs ds g))
    as (_ & final & Hlast & Hreach & Hlen).
  { destruct Hret; eauto using bfs_traversal_Return_step_sequence,
      dfs_traversal_Return_step_sequence. }
  unfold snapshots in Hlast. rewrite fmap_last in Hlast.
  destruct (last (active_steps bs ds g)) as [snap|] eqn:Hsnap; [|done].
  simpl in Hlast. injection Hlast as <-.
  rewrite last_lookup in Hsnap.
  assert (0 < length (active_steps bs ds g)).
  { destruct (active_steps bs ds g); [done|simpl; lia]. }
  assert (Z.to_nat (current_step g) = pred (length (active_steps bs ds g)))
    as Hidx by lia.
  subst g'. rewrite (draw_current_step_shown G bs ds g snap);
    [|lia|by rewrite Hidx].
  destruct g as [anim tt cs pl pa title col lbl]. simpl.
  split; [by rewrite length_fmap|].
  intros k node Hk. rewrite list_lookup_fmap, Hk. simpl.
  rewrite <-Hreach, elem_of_list_to_set.
  split; intros ?; by rewrite ?decide_True, ?decide_False by done.
Qed.

Lemma last_step_highlights_reachable_witness :
  let bs := [["A"]; ["A"; "B"]; ["C"; "A"; "B"]; ["C"; "A"; "B"; "H"];
          ["C"; "A"; "B"; "D"; "H"]; ["C"; "E"; "A"; "B"; "D"; "H"];
          ["C"; "E"; "A"; "F"; "B"; "D"; "H"];
          ["G"; "C"; "E"; "A"; "F"; "B"; "D"; "H"];
          ["G"; "C"; "E"; "I"; "A"; "F"; "B"; "D"; "H"]] in
  let g := set_current_step 8 (startup G) in
  length (node_color (draw_current_step G bs [] g).2) = length (nodes G).
Proof.
  intros bs g.
  assert (bfs_traversal elements_iteration G 26 "A"
          = Return (active_steps bs [] g)) as Hret by exact bfs_on_G.
  assert (current_step g
          = (Z.of_nat (length (active_steps bs [] g)) - 1)%Z) as Hcs
    by (vm_compute; reflexivity).
  pose proof (last_step_highlights_reachable elements_iteration G 26 "A"
                bs [] g (or_introl Hret) Hcs) as H.
  cbv zeta in H. exact (proj1 H).
Defined.

(** ** Breadth-first order *)

Lemma bfs_levels_start G start :
  bfs_levels G start (λ _, 0) 0 ∅ [start] [] [].
Proof.
  unfold bfs_levels. split_and!; try set_solver; try (intros; lia).
  - intros y Hy. inversion Hy; subst. right. by left.
  - intros q ->%list_elem_of_singleton. constructor.
Qed.

Lemma bfs_levels_next_level G start lev l v Q2 order :
  bfs_levels G start lev l v [] Q2 order →
  bfs_levels G start lev (S l) v Q2 [] order.
Proof.
  intros (Ha & Hb & Hc & Hd1 & Hd2 & He & Hf1 & Hf2).
  unfold bfs_levels. split_and!; try done.
  - intros x Hx. destruct (Ha x Hx) as (? & ? & ?). split_and!; [lia|done..].
  - intros y d Hy Hd. destruct (decide (d < l)); [by eapply Hb|].
    assert (d = l) as -> by lia.
    destruct (Hc y Hy) as [?|?%elem_of_nil]; done.
  - intros y (x & Hx & Hxy)%nsteps_inv_r.
    assert (x ∈ v) as Hxv by (destruct (Hc x Hx) as [?|?%elem_of_nil]; done).
    destruct (Ha x Hxv) as (Hle & Hlev & _).
    destruct (decide (lev x = l)) as [Hl|Hl]; [by eapply He|].
    left. pose proof (nsteps_r _ _ _ _ Hlev Hxy) as Hy.
    destruct (decide (S (lev x) < l)); [by eapply Hb|].
    assert (S (lev x) = l) as Heq by lia. rewrite Heq in Hy.
    destruct (Hc y Hy) as [?|?%elem_of_nil]; done.
  - intros q ?%elem_of_nil. done.
  - intros x y Hx Hl. destruct (Ha x Hx) as (? & _). lia.
Qed.

Lemma bfs_levels_skip G start lev l v n Q1 Q2 order :
  bfs_levels G start lev l v (n :: Q1) Q2 order → n ∈ v →
  bfs_levels G start lev l v Q1 Q2 order.
Proof.
  intros (Ha & Hb & Hc & Hd1 & Hd2 & He & Hf1 & Hf2) Hn.
  unfold bfs_levels. split_and!; try done.
  - intros y Hy. destruct (Hc y Hy) as [?|[->|?]%elem_of_cons]; auto.
  - intros q Hq. apply Hd1. by right.
Qed.

Lemma bfs_levels_visit G start lev l v n ns Q1 Q2 order :
  bfs_levels G start lev l v (n :: Q1) Q2 order → n ∉ v →
  adj G n = Some ns →
  bfs_levels G start (λ x, if decide (x = n) then l else lev x) l
    (v ∪ {[n]}) Q1
    (Q2 ++ filter (λ neighbor, neighbor ∉ v ∪ {[n]}) ns) (order ++ [n]).
Proof.
  intros (Ha & Hb & Hc & Hd1 & Hd2 & He & Hf1 & Hf2) Hn Hns.
  assert (nsteps (edge G) l start n) as Hln by (apply Hd1; by left).
  unfold bfs_levels. split_and!.
  - intros x [Hx| ->%elem_of_singleton]%elem_of_union.
    + rewrite decide_False by (by intros ->). by apply Ha.
    + rewrite decide_True by done. split_and!; [done..|].
      intros d Hd. destruct (decide (d < l)); [|lia].
      destruct Hn. by eapply Hb.
  - intros y d Hy Hd. apply elem_of_union. left. by eapply Hb.
  - intros y Hy. destruct (Hc y Hy) as [?|[->|?]%elem_of_cons];
      [left|left|right]; set_solver.
  - intros q Hq. apply Hd1. by right.
  - intros q [Hq|[_ Hq]%list_elem_of_filter]%elem_of_app; [by apply Hd2|].
    eapply nsteps_r; [done|]. by exists ns.
  - intros x y [Hx| ->%elem_of_singleton]%elem_of_union Hl Hxy.
    + rewrite decide_False in Hl by (by intros ->).
      destruct (He x y Hx Hl Hxy); [left; set_solver|right].
      apply elem_of_app. by left.
    + destruct Hxy as (ns' & Hns' & Hy). simplify_eq.
      destruct (decide (y ∈ v ∪ {[n]})); [by left|right].
      apply elem_of_app. right. by apply list_elem_of_filter.
  - intros x [Hx| ->%list_elem_of_singleton]%elem_of_app; [|set_solver].
    apply elem_of_union. left. by apply Hf1.
  - intros i j a b Hij Hi Hj.
    assert (a ∈ order) as Hao.
    { apply lookup_lt_Some in Hj as Hjl. rewrite length_app in Hjl.
      simpl in Hjl. rewrite lookup_app_l in Hi by lia.
      by eapply list_elem_of_lookup_2. }
    assert (a ≠ n) by (intros ->; by apply Hn, Hf1).
    rewrite (decide_False (P := a = n)) by done.
    apply lookup_snoc_Some in Hj as [[Hjl Hj]|[_ ->]].
    + assert (b ≠ n).
      { intros ->. by apply Hn, Hf1, (list_elem_of_lookup_2 _ j). }
      rewrite decide_False by done.
      apply (Hf2 i j); [done| |done]. by rewrite lookup_app_l in Hi by lia.
    + rewrite decide_True by done. by destruct (Ha a (Hf1 a Hao)) as [? _].
Qed.

Lemma bfs_loop_levels so G start fuel : ∀ v queue s r,
  bfs_loop so G fuel v queue s = Return r →
  chain ∅ (snapshots s) v →
  (∃ lev l Q1 Q2, queue = Q1 ++ Q2 ∧
     bfs_levels G start lev l v Q1 Q2 (visit_order s)) →
  ∃ lev l, bfs_levels G start lev l (visited r) [] [] (visit_order (steps r)).
Proof.
  induction fuel as [|fuel IH]; intros v queue s r.
  - destruct queue; [|done]. intros [= <-] _ (lev & l & Q1 & Q2 & HQ & Hl).
    symmetry in HQ. apply app_eq_nil in HQ as [-> ->]. eauto.
  - destruct queue as [|n queue].
    { intros [= <-] _ (lev & l & Q1 & Q2 & HQ & Hl).
      symmetry in HQ. apply app_eq_nil in HQ as [-> ->]. eauto. }
    intros Hr Hc (lev & l & Q1 & Q2 & HQ & Hl).
    assert (∃ lev l Q1 Q2, queue = Q1 ++ Q2 ∧
              bfs_levels G start lev l v (n :: Q1) Q2 (visit_order s))
      as (lev' & l' & Q1' & Q2' & -> & Hl').
    { destruct Q1 as [|q Q1]; simpl in HQ; subst.
      - exists lev, (S l), queue, []. rewrite app_nil_r. split; [done|].
        by apply bfs_levels_next_level.
      - simplify_eq. eauto 10. }
    simpl in Hr. case_decide as Hn.
    + eapply IH; [done..|]. eauto 10 using bfs_levels_skip.
    + destruct (neighbors G n) as [|ns] eqn:Hns; [done|].
      apply neighbors_inr in Hns.
      destruct (visit_order_snoc so s v n Hc Hn) as [Hc' Ho].
      eapply IH; [done..|]. rewrite Ho, <-app_assoc.
      eauto 10 using bfs_levels_visit.
Qed.

(** X14: [bfs_traversal] marks nodes nearest first: if [a] is marked
    before [b] and [b] can be reached from the start in [d] hops, then
    [a] can be reached in [d] hops or fewer. *)
Theorem bfs_visits_nearest_first so G fuel start steps i j a b d :
  bfs_traversal so G fuel start = Return steps →
  visit_order steps !! i = Some a → visit_order steps !! j = Some b →
  i < j →
  nsteps (edge G) d start b →
  ∃ d', d' ≤ d ∧ nsteps (edge G) d' start a.
Proof.
  intros [v Hr]%bfs_traversal_inv Hi Hj Hij Hd.
  destruct (bfs_loop_levels so G start fuel ∅ [start] [] _ Hr)
    as (lev & l & Ha & _ & _ & _ & _ & _ & Hf1 & Hf2).
  { constructor. }
  { exists (λ _, 0), 0, [start], []. split; [done|].
    apply bfs_levels_start. }
  simpl in *. exists (lev a).
  assert (a ∈ v) as Hav by (by eapply Hf1, list_elem_of_lookup_2).
  assert (b ∈ v) as Hbv by (by eapply Hf1, list_elem_of_lookup_2).
  destruct (Ha a Hav) as (_ & Hla & _). destruct (Ha b Hbv) as (_ & _ & Hmin).
  split; [|done]. specialize (Hf2 i j a b Hij Hi Hj). specialize (Hmin d Hd).
  lia.
Qed.

Lemma next_prev_round_trip_witness :
  let bs := [["A"]; ["A"; "B"]; ["A"; "B"; "C"]] in
  let ds := [["A"]; ["A"; "B"]; ["A"; "B"; "D"]] in
  let g := set_current_step 1 (startup G) in
  prev_step G bs ds (next_step G bs ds g).2 = draw_current_step G bs ds g ∧
  next_step G bs ds (prev_step G bs ds g).2 = draw_current_step G bs ds g.
Proof.
  intros bs ds g.
  assert (is_playing g = false) as Hpl by reflexivity.
  assert (0 ≤ current_step g
          < Z.of_nat (length (active_steps bs ds g)) - 1)%Z as H1
    by (split; [vm_compute; discriminate|vm_compute; reflexivity]).
  assert (0 < current_step g
          < Z.of_nat (length (active_steps bs ds g)))%Z as H2
    by (split; vm_compute; reflexivity).
  destruct (next_prev_round_trip G bs ds g Hpl) as [Hnp Hpn].
  split; [exact (Hnp H1)|exact (Hpn H2)].
Defined.

Lemma draw_current_step_highlights_witness :
  let bs := [["A"]; ["A"; "B"]; ["A"; "B"; "C"]] in
  let g := set_current_step 1 (startup G) in
  let g3 := set_current_step 3 (startup G) in
  node_color (draw_current_step G bs [] g).2
  = ["red"; "red"; "lightgray"; "lightgray"; "lightgray"; "lightgray";
     "lightgray"; "lightgray"; "lightgray"] ∧
  ax_title (draw_current_step G bs [] g).2 = "BFS - Step 2/3" ∧
  ax_title (draw_current_step G bs [] g3).2 = "BFS - Complete".
Proof.
  intros bs g g3.
  destruct (draw_current_step_highlights G bs [] g) as [Hin _].
  destruct (draw_current_step_highlights G bs [] g3) as [_ Hout].
  assert (0 ≤ current_step g)%Z as H0 by (vm_compute; discriminate).
  assert (active_steps bs [] g !! Z.to_nat (current_step g)
          = Some ["A"; "B"]) as Hsnap by reflexivity.
  assert (Z.of_nat (length (active_steps bs [] g3)) ≤ current_step g3)%Z
    as H3 by (vm_compute; discriminate).
  rewrite (Hin _ H0 Hsnap), (Hout H3).
  split; [vm_compute; reflexivity|]. split; vm_compute; reflexivity.
Defined.

Lemma callbacks_index_in_bounds_witness :
  ∃ bs ds,
    precompute elements_iteration reverse_iteration 26 = Return (bs, ds) ∧
    let g := run G bs ds [ClickStart; TimerTick; ClickPrev] (startup G) in
    (callback G bs ds ClickNext g).1 ≠ inl IndexError.
Proof.
  eexists _, _. split; [vm_compute; reflexivity|].
  refine (callbacks_index_in_bounds elements_iteration reverse_iteration 26
            _ _ [ClickStart; TimerTick; ClickPrev] ClickNext _).
  vm_compute. reflexivity.
Defined.

Lemma callbacks_raise_only_when_finished_witness :
  ∃ bs ds,
    precompute elements_iteration reverse_iteration 26 = Return (bs, ds) ∧
    let g := run G bs ds (ClickStart :: replicate 10 TimerTick) (startup G) in
    (callback G bs ds ClickStart g).1 = inl AttributeError ∧
    is_playing g = true ∧
    ∃ n i, current_animation g = Some (MkAnimation n i None).
Proof.
  eexists _, _. split; [vm_compute; reflexivity|].
  cbv zeta. split; [vm_compute; reflexivity|].
  refine (proj2 (callbacks_raise_only_when_finished elements_iteration
                   reverse_iteration 26 _ _
                   (ClickStart :: replicate 10 TimerTick) ClickStart
                   AttributeError _ _)).
  - vm_compute. reflexivity.
  - vm_compute. reflexivity.
Defined.

Lemma edge_A_B : edge G "A" "B".
Proof. exists ["B"; "C"; "H"]. split; [reflexivity|]. set_solver. Qed.

Lemma edge_B_D : edge G "B" "D".
Proof. exists ["A"; "D"; "E"]. split; [reflexivity|]. set_solver. Qed.

Lemma bfs_visits_nearest_first_witness :
  ∃ d', d' ≤ 2 ∧ nsteps (edge G) d' "A" "B".
Proof.
  assert (nsteps (edge G) 2 "A" "D") as Hd.
  { eapply nsteps_l; [exact edge_A_B|].
    eapply nsteps_l; [exact edge_B_D|]. constructor. }
  assert (1 < 4) as Hij by lia.
  refine (bfs_visits_nearest_first elements_iteration G 26 "A" _ 1 4 "B" "D"
            2 bfs_on_G _ _ Hij Hd).
  - vm_compute. reflexivity.
  - vm_compute. reflexivity.
Defined.
